(** * Query builder: the Group/Clause tree, its mutators and its serializer

    A shallow embedding of [azure-devops-query-builder-angular.component.ts]
    (class [AzureQueryBuilderComponent]) and the properties of its tree
    operations.

    Conventions of the embedding.
    - A JavaScript object that a method mutates in place is passed in as a
      value and handed back as the first component of the result: a method
      [m(obj, args)] becomes a function from [obj] to the object after the call
      (paired with the returned value, when there is one).
    - [Math.random] is the only global state.  It is modelled by the sequence
      of strings that the successive evaluations of
      [Math.random().toString(36).substr(2, 9)] produce; the methods that call
      [uid] live in the state monad [M] over that sequence.
    - A property read on an object that lacks the property gives [undefined];
      a method call on [undefined] throws a [TypeError].  Methods that can
      throw return an [Outcome]; the objects keep whatever was written to
      them before the throw. *)

From Stdlib Require Import String Ascii List ZArith Bool Lia.
Import ListNotations.
Open Scope string_scope.
Open Scope list_scope.

Set Implicit Arguments.
Set Warnings "-register-all".

(** ** Plain JavaScript values *)

(** The values that flow through the component: what [value?: any] can hold
    (the template binds it to text, number, date and boolean inputs) and the
    documents that [serializeGroup] builds.  An object is the list of its
    properties in insertion order. *)
Inductive Json : Type :=
| JUndefined
| JString (s : string)
| JNumber (z : Z)
| JBoolean (b : bool)
| JArray (elems : list Json)
| JObject (props : list (string * Json)).

(** An optional string property ([field?: string]) read as a value. *)
Definition opt_json (o : option string) : Json :=
  match o with
  | Some s => JString s
  | None => JUndefined
  end.

(** ** Models (lines 9-29 of the component) *)

(** [type FieldType = 'string' | 'number' | 'date' | 'boolean' | 'tags'] *)
Inductive FieldType : Type := Tstring | Tnumber | Tdate | Tboolean | Ttags.

(** The string literal each member of [FieldType] is at run time. *)
Definition FieldType_literal (t : FieldType) : string :=
  match t with
  | Tstring => "string"
  | Tnumber => "number"
  | Tdate => "date"
  | Tboolean => "boolean"
  | Ttags => "tags"
  end.

Record Field : Type := mkField {
  key : string;
  label : string;
  type : FieldType;
  operators : list string
}.

(** [interface Clause { id; field?; operator?; value? }] *)
Record Clause : Type := mkClause {
  cid : string;
  field : option string;
  operator : option string;
  value : Json
}.

(** ['AND' | 'OR'] *)
Inductive Logic : Type := AND | OR.

Definition Logic_literal (l : Logic) : string :=
  match l with
  | AND => "AND"
  | OR => "OR"
  end.

(** [interface Group { id; logic; clauses: Array<Clause | Group> }].  The
    union [Clause | Group] carries no discriminant in the source; [Item] is
    the union, and which variant the code takes an item for is decided by
    [isClause] below, from the id. *)
Unset Elimination Schemes.
Inductive Group : Type :=
| mkGroup (gid : string) (logic : Logic) (clauses : list Item)
with Item : Type :=
| IClause (c : Clause)
| IGroup (g : Group).
Set Elimination Schemes.

Definition gid (g : Group) : string := let 'mkGroup i _ _ := g in i.
Definition logic (g : Group) : Logic := let 'mkGroup _ l _ := g in l.
Definition clauses (g : Group) : list Item := let 'mkGroup _ _ cs := g in cs.

(** Property reads on an item of the union.  Both variants have [id]; the
    other properties exist on one variant only and read as [undefined] on the
    other. *)
Definition item_id (item : Item) : string :=
  match item with
  | IClause c => cid c
  | IGroup g => gid g
  end.

Definition item_field (item : Item) : Json :=
  match item with
  | IClause c => opt_json (field c)
  | IGroup _ => JUndefined
  end.

Definition item_operator (item : Item) : Json :=
  match item with
  | IClause c => opt_json (operator c)
  | IGroup _ => JUndefined
  end.

Definition item_value (item : Item) : Json :=
  match item with
  | IClause c => value c
  | IGroup _ => JUndefined
  end.

Definition item_logic (item : Item) : Json :=
  match item with
  | IClause _ => JUndefined
  | IGroup g => JString (Logic_literal (logic g))
  end.

(** [s.startsWith(searchString)] *)
Fixpoint startsWith (s searchString : string) {struct searchString} : bool :=
  match searchString with
  | EmptyString => true
  | String a rest =>
      match s with
      | EmptyString => false
      | String b s' => Ascii.eqb a b && startsWith s' rest
      end
  end.

(** ** Exceptions *)

Inductive JsError : Type := TypeError.

Inductive Outcome (R : Type) : Type :=
| Return (r : R)
| Throw (e : JsError).
Arguments Throw {R} e.

(** ** Array primitives *)

Section Arrays.
Context {A : Type}.

(** [arr.push(x)] *)
Definition push (arr : list A) (x : A) : list A := arr ++ [x].

(** [arr.splice(start, deleteCount)] for integer arguments: a negative
    [start] counts from the end, both arguments are clamped to the array. *)
Definition splice (arr : list A) (start deleteCount : Z) : list A :=
  let len := Z.of_nat (length arr) in
  let actualStart :=
    if (start <? 0)%Z then Z.max (len + start) 0 else Z.min start len in
  let actualDeleteCount :=
    Z.min (Z.max deleteCount 0) (len - actualStart) in
  firstn (Z.to_nat actualStart) arr
    ++ skipn (Z.to_nat (actualStart + actualDeleteCount)) arr.

(** [arr.findIndex(p)]: the index of the first element satisfying [p], or
    [-1]. *)
Fixpoint findIndex_from (p : A -> bool) (arr : list A) (i : Z) : Z :=
  match arr with
  | [] => (-1)%Z
  | x :: rest => if p x then i else findIndex_from p rest (i + 1)%Z
  end.

Definition findIndex (p : A -> bool) (arr : list A) : Z :=
  findIndex_from p arr 0%Z.

(** [arr.find(p)]: the first element satisfying [p], or [undefined]. *)
Fixpoint find (p : A -> bool) (arr : list A) : option A :=
  match arr with
  | [] => None
  | x :: rest => if p x then Some x else find p rest
  end.

(** [arr.map(f)] and [for (const x of arr) body(x)] where the callback may
    write to the element it is given and may throw: the elements visited so
    far are returned as the callback left them, the rest untouched. *)
Section Traversal.
Context {B : Type} (f : A -> A * Outcome B).

Fixpoint array_map (arr : list A) : list A * Outcome (list B) :=
  match arr with
  | [] => ([], Return [])
  | x :: rest =>
      let (x', r) := f x in
      match r with
      | Throw e => (x' :: rest, Throw e)
      | Return b =>
          let (rest', rs) := array_map rest in
          (x' :: rest',
           match rs with
           | Return bs => Return (b :: bs)
           | Throw e => Throw e
           end)
      end
  end.
End Traversal.

Section Loop.
Variable body : A -> A * Outcome unit.

Fixpoint for_of (arr : list A) : list A * Outcome unit :=
  match arr with
  | [] => ([], Return tt)
  | x :: rest =>
      let (x', r) := body x in
      match r with
      | Throw e => (x' :: rest, Throw e)
      | Return _ =>
          let (rest', r') := for_of rest in (x' :: rest', r')
      end
  end.
End Loop.
End Arrays.

(** ** Helper utils (line 32) *)

(** The strings that successive evaluations of
    [Math.random().toString(36).substr(2, 9)] yield. *)
Definition Rand : Type := nat -> string.

Definition M (A : Type) : Type := Rand -> A * Rand.

Definition ret {A : Type} (a : A) : M A := fun r => (a, r).

Definition bind {A B : Type} (m : M A) (k : A -> M B) : M B :=
  fun r => let (a, r') := m r in k a r'.

Notation "x <- m ;; k" := (bind m (fun x => k))
  (at level 61, m at next level, right associativity).

Definition random_suffix : M string :=
  fun r => (r 0, fun n => r (S n)).

(** [const uid = (prefix = '') => prefix + Math.random().toString(36).substr(2, 9)] *)
Definition uid (prefix : string) : M string :=
  s <- random_suffix ;;
  ret (prefix ++ s)%string.

(** [DEFAULT_FIELDS] (lines 34-41) *)
Definition DEFAULT_FIELDS : list Field :=
  [ mkField "Title" "Title" Tstring ["contains"; "equals"; "not equals"; "startsWith"];
    mkField "State" "State" Tstring ["equals"; "not equals"];
    mkField "AssignedTo" "Assigned To" Tstring ["equals"; "not equals"];
    mkField "Priority" "Priority" Tnumber ["="; "!="; "<"; ">"];
    mkField "CreatedDate" "Created Date" Tdate ["before"; "after"; "on"];
    mkField "IsActive" "Is Active" Tboolean ["is"; "is not"] ].

(** ** The component (lines 124-205) *)

Record Component : Type := mkComponent {
  fields : list Field;
  rootGroup : Group
}.

(** [newGroup()] *)
Definition newGroup : M Group :=
  i <- uid "g_" ;;
  ret (mkGroup i AND []).

(** [newClause()] *)
Definition newClause : M Clause :=
  i <- uid "c_" ;;
  ret (mkClause i None None (JString "")).

(** [addClause(group)]: [group.clauses.push(this.newClause())] *)
Definition addClause (group : Group) : M Group :=
  c <- newClause ;;
  ret (mkGroup (gid group) (logic group) (push (clauses group) (IClause c))).

(** [removeClause(group, index)]: [group.clauses.splice(index, 1)] *)
Definition removeClause (group : Group) (index : Z) : Group :=
  mkGroup (gid group) (logic group) (splice (clauses group) index 1).

(** [addGroup(parent)]: [parent.clauses.push(this.newGroup())] *)
Definition addGroup (parent : Group) : M Group :=
  g <- newGroup ;;
  ret (mkGroup (gid parent) (logic parent) (push (clauses parent) (IGroup g))).

(** [isClause(item)]: [(item as Clause).id?.startsWith('c_')].  [id] is a
    string on both variants, so the optional chaining never short-circuits. *)
Definition isClause (item : Item) : bool :=
  startsWith (item_id item) "c_".
Arguments isClause : simpl never.

(** [removeGroup(groupToRemove, parentGroup)].  The recursive call receives
    [item as Group]; when [item] is a Clause that [isClause] did not
    recognise, [item.clauses] is [undefined] and [findIndex] on it throws. *)
Fixpoint removeGroup (groupToRemove : Group) (parentGroup : Group)
  : Group * Outcome unit :=
  match parentGroup with
  | mkGroup pid plogic pclauses =>
      let idx :=
        findIndex
          (fun c => negb (isClause c) && (item_id c =? gid groupToRemove))
          pclauses in
      if negb (idx =? -1)%Z then
        (mkGroup pid plogic (splice pclauses idx 1), Return tt)
      else
        let (pclauses', r) :=
          for_of
            (fun item =>
               if negb (isClause item) then
                 match item with
                 | IGroup g =>
                     let (g', r) := removeGroup groupToRemove g in
                     (IGroup g', r)
                 | IClause _ => (item, Throw TypeError)
                 end
               else (item, Return tt))
            pclauses in
        (mkGroup pid plogic pclauses', r)
  end.

(** The predicate of [findIndex] and the body of the loop in [removeGroup]. *)
Definition matches (groupToRemove : Group) (c : Item) : bool :=
  negb (isClause c) && (item_id c =? gid groupToRemove).

Definition removeGroup_body (groupToRemove : Group) (item : Item)
  : Item * Outcome unit :=
  if negb (isClause item) then
    match item with
    | IGroup g =>
        let (g', r) := removeGroup groupToRemove g in (IGroup g', r)
    | IClause _ => (item, Throw TypeError)
    end
  else (item, Return tt).

(** [removeGroup(groupToRemove)], as the template calls it: the search
    starts at the default [parentGroup = this.rootGroup]. *)
Definition removeGroup_default (this : Component) (groupToRemove : Group)
  : Component * Outcome unit :=
  let (root', r) := removeGroup groupToRemove (rootGroup this) in
  (mkComponent (fields this) root', r).

(** [onFieldChange(clause)] *)
Definition onFieldChange (clause : Clause) : Clause :=
  let clause := mkClause (cid clause) (field clause) None (value clause) in
  mkClause (cid clause) (field clause) (operator clause) (JString "").

(** The field [<select>] of a clause row (template, line 78):
    [[(ngModel)]="item.field" (ngModelChange)="onFieldChange(item)"].
    Choosing an option first stores the option's value in [item.field] (the
    two-way binding; the placeholder option carries [undefined]) and then
    runs the [ngModelChange] handler. *)
Definition field_select_change (item : Clause) (event : option string) : Clause :=
  let item := mkClause (cid item) event (operator item) (value item) in
  onFieldChange item.

(** [x.key === clause.field]: [key] is always a string, [field] may be
    [undefined]. *)
Definition key_is (fld : option string) (x : Field) : bool :=
  match fld with
  | Some k => key x =? k
  | None => false
  end.

(** [operatorsForClause(clause)] *)
Definition operatorsForClause (this : Component) (clause : Clause) : list string :=
  match find (key_is (field clause)) (fields this) with
  | Some f => operators f
  | None => []
  end.

(** [valueInputType(clause)] *)
Definition valueInputType (this : Component) (clause : Clause) : FieldType :=
  match find (key_is (field clause)) (fields this) with
  | Some f => type f
  | None => Tstring
  end.

(** [serializeGroup(group)].  In the [else] branch of the callback the
    object literal reads [item.logic] and then calls
    [this.serializeGroup(item as Group)], whose [group.clauses.map] throws
    when [item] is a Clause that [isClause] did not recognise. *)
Fixpoint serializeGroup (group : Group) : Group * Outcome Json :=
  match group with
  | mkGroup i lg cs =>
      let (cs', r) :=
        array_map
          (fun item =>
             if isClause item then
               (item,
                Return (JObject [("type", JString "clause");
                                 ("field", item_field item);
                                 ("operator", item_operator item);
                                 ("value", item_value item)]))
             else
               match item with
               | IGroup g =>
                   let (g', r) := serializeGroup g in
                   (IGroup g',
                    match r with
                    | Return doc =>
                        Return (JObject [("type", JString "group");
                                         ("logic", item_logic item);
                                         ("group", doc)])
                    | Throw e => Throw e
                    end)
               | IClause _ => (item, Throw TypeError)
               end)
          cs in
      (mkGroup i lg cs',
       match r with
       | Return parts =>
           Return (JObject [("logic", JString (Logic_literal lg));
                            ("parts", JArray parts)])
       | Throw e => Throw e
       end)
  end.

(** The callback that [serializeGroup] maps over the children. *)
Definition serializePart (item : Item) : Item * Outcome Json :=
  if isClause item then
    (item,
     Return (JObject [("type", JString "clause");
                      ("field", item_field item);
                      ("operator", item_operator item);
                      ("value", item_value item)]))
  else
    match item with
    | IGroup g =>
        let (g', r) := serializeGroup g in
        (IGroup g',
         match r with
         | Return doc =>
             Return (JObject [("type", JString "group");
                              ("logic", item_logic item);
                              ("group", doc)])
         | Throw e => Throw e
         end)
    | IClause _ => (item, Throw TypeError)
    end.

(** Field initialisers and constructor (lines 125-132):
    [fields = DEFAULT_FIELDS], [rootGroup = this.newGroup()], then
    [this.addClause(this.rootGroup)]. *)
Definition constructor : M Component :=
  g <- newGroup ;;
  let this := mkComponent DEFAULT_FIELDS g in
  g' <- addClause (rootGroup this) ;;
  ret (mkComponent (fields this) g').

(** [clear()] *)
Definition clear (this : Component) : M Component :=
  g <- newGroup ;;
  let this := mkComponent (fields this) g in
  g' <- addClause (rootGroup this) ;;
  ret (mkComponent (fields this) g').

(** ** Well-formed trees *)

(** The id convention of the factories: every Clause of the tree is one that
    [isClause] recognises, every nested Group one that it rejects. *)
Fixpoint tags_ok (g : Group) : bool :=
  match g with
  | mkGroup _ _ cs =>
      forallb
        (fun item =>
           match item with
           | IClause _ => isClause item
           | IGroup h => negb (isClause item) && tags_ok h
           end)
        cs
  end.

Definition item_tags_ok (item : Item) : bool :=
  match item with
  | IClause _ => isClause item
  | IGroup h => negb (isClause item) && tags_ok h
  end.

(** The ids of all the nodes of a tree, the root's first. *)
Fixpoint ids (g : Group) : list string :=
  match g with
  | mkGroup i _ cs =>
      i :: flat_map
             (fun item =>
                match item with
                | IClause c => [cid c]
                | IGroup h => ids h
                end)
             cs
  end.

Definition item_ids (item : Item) : list string :=
  match item with
  | IClause c => [cid c]
  | IGroup h => ids h
  end.

(** Structural induction on a tree: the property may be assumed of every
  nested Group among the children. *)
Section GroupInduction.
Variable P : Group -> Prop.

Definition P_item (item : Item) : Prop :=
  match item with
  | IClause _ => True
  | IGroup h => P h
  end.

Hypothesis step :
  forall i lg cs, Forall P_item cs -> P (mkGroup i lg cs).

Fixpoint Group_ind (g : Group) : P g :=
  match g with
  | mkGroup i lg cs =>
      step i lg
        ((fix children (l : list Item) : Forall P_item l :=
            match l with
            | [] => Forall_nil _
            | item :: rest =>
                Forall_cons item
                  (match item return P_item item with
                   | IClause _ => I
                   | IGroup h => Group_ind h
                   end)
                  (children rest)
            end) cs)
  end.
End GroupInduction.

(** ** Vocabulary of the properties *)

(** A Group with id [tid] occurs strictly below [g]. *)
Fixpoint has_group (tid : string) (g : Group) : bool :=
  match g with
  | mkGroup _ _ cs =>
      existsb
        (fun item =>
           match item with
           | IClause _ => false
           | IGroup h => (gid h =? tid) || has_group tid h
           end)
        cs
  end.

Definition item_has_group (tid : string) (item : Item) : bool :=
  match item with
  | IClause _ => false
  | IGroup h => has_group tid h
  end.

(** [RemovesFirst tid g g']: [g'] is [g] with exactly one entry taken out of
    exactly one children list, everything else in place.  The entry is a
    Group with id [tid]: the first such among the children of [g] if there is
    one, and otherwise the one found in the first nested Group, in children
    order, that has it below. *)
Inductive RemovesFirst (tid : string) : Group -> Group -> Prop :=
| removes_child (i : string) (lg : Logic) (before after : list Item) (h : Group) :
    gid h = tid ->
    (forall k, In (IGroup k) before -> gid k <> tid) ->
    RemovesFirst tid
      (mkGroup i lg (before ++ IGroup h :: after))
      (mkGroup i lg (before ++ after))
| removes_below (i : string) (lg : Logic) (before after : list Item)
    (h h' : Group) :
    (forall k, In (IGroup k) (before ++ IGroup h :: after) -> gid k <> tid) ->
    (forall k, In (IGroup k) before -> has_group tid k = false) ->
    RemovesFirst tid h h' ->
    RemovesFirst tid
      (mkGroup i lg (before ++ IGroup h :: after))
      (mkGroup i lg (before ++ IGroup h' :: after)).

(** What [removeGroup] does to a well-formed tree. *)
Definition Removal (t g : Group) : Prop :=
  NoDup (ids g) ->
  tags_ok g = true ->
  exists result,
    removeGroup t g = (result, Return tt)
    /\ if has_group (gid t) g
       then RemovesFirst (gid t) g result
       else result = g.

(** What it means for a document to follow a tree: one part per child, in
    the children's order, a clause part for a child taken for a Clause and a
    group part holding the nested document for a child taken for a Group. *)
Inductive DocumentOf : Group -> Json -> Prop :=
| doc_of_group (i : string) (lg : Logic) (cs : list Item) (parts : list Json) :
    Forall2 PartOf cs parts ->
    DocumentOf (mkGroup i lg cs)
      (JObject [("logic", JString (Logic_literal lg)); ("parts", JArray parts)])
with PartOf : Item -> Json -> Prop :=
| part_of_clause (item : Item) :
    isClause item = true ->
    PartOf item
      (JObject [("type", JString "clause");
                ("field", item_field item);
                ("operator", item_operator item);
                ("value", item_value item)])
| part_of_group (g : Group) (doc : Json) :
    isClause (IGroup g) = false ->
    DocumentOf g doc ->
    PartOf (IGroup g)
      (JObject [("type", JString "group");
                ("logic", JString (Logic_literal (logic g)));
                ("group", doc)]).

(** The scenario of C1: a root Group with logic AND and no children (any id),
    then [addClause(root)], [addGroup(root)], [serializeGroup(root)]. *)
Definition scenario (rootId : string) : M (Group * Outcome Json) :=
  let root := mkGroup rootId AND [] in
  root <- addClause root ;;
  root <- addGroup root ;;
  ret (serializeGroup root).

(** The document of the scenario as the specification writes it, with
    [kind]. *)
Definition scenario_document_kind : Json :=
  JObject
    [("logic", JString "AND");
     ("parts",
      JArray
        [JObject [("kind", JString "clause"); ("field", JUndefined);
                  ("operator", JUndefined); ("value", JString "")];
         JObject [("kind", JString "group"); ("logic", JString "AND");
                  ("group",
                   JObject [("logic", JString "AND"); ("parts", JArray [])])]])].

(** The same document with the discriminant under [type]. *)
Definition scenario_document_type : Json :=
  JObject
    [("logic", JString "AND");
     ("parts",
      JArray
        [JObject [("type", JString "clause"); ("field", JUndefined);
                  ("operator", JUndefined); ("value", JString "")];
         JObject [("type", JString "group"); ("logic", JString "AND");
                  ("group",
                   JObject [("logic", JString "AND"); ("parts", JArray [])])]])].

Definition sample_tree : Group :=
  mkGroup "g_root" AND
    [IClause (mkClause "c_1" (Some "Title") (Some "contains") (JString "bug"));
     IGroup (mkGroup "g_2" OR
               [IClause (mkClause "c_3" None None (JString ""));
                IGroup (mkGroup "g_4" AND
                          [IClause (mkClause "c_5" None None (JString ""))])]);
     IGroup (mkGroup "g_6" AND [])].

(** ** Vocabulary of the further properties *)

(** A well-formed tree: all ids distinct, and ids that follow the factories'
    convention. *)
Definition well_formed (g : Group) : Prop :=
  NoDup (ids g) /\ tags_ok g = true.

(** The shapes of the documents that [serializeGroup] builds. *)
Definition query_document (lg : Logic) (parts : list Json) : Json :=
  JObject [("logic", JString (Logic_literal lg)); ("parts", JArray parts)].

Definition clause_part (fld op val : Json) : Json :=
  JObject [("type", JString "clause"); ("field", fld);
           ("operator", op); ("value", val)].

Definition group_part (lg doc : Json) : Json :=
  JObject [("type", JString "group"); ("logic", lg); ("group", doc)].

(** Every child that [isClause] does not recognise is a Group, at every
    level below [g] that is reached through such Groups. *)
Fixpoint dispatch_ok (g : Group) : bool :=
  match g with
  | mkGroup _ _ cs =>
      forallb
        (fun item =>
           isClause item
           || match item with
              | IClause _ => false
              | IGroup h => dispatch_ok h
              end)
        cs
  end.

Definition item_dispatch_ok (item : Item) : bool :=
  isClause item
  || match item with
     | IClause _ => false
     | IGroup h => dispatch_ok h
     end.

(** The document of a tree read off its variants, without looking at ids. *)
Fixpoint document (g : Group) : Json :=
  match g with
  | mkGroup _ lg cs =>
      query_document lg
        (map
           (fun item =>
              match item with
              | IClause c =>
                  clause_part (opt_json (field c)) (opt_json (operator c))
                    (value c)
              | IGroup h =>
                  group_part (JString (Logic_literal (logic h))) (document h)
              end)
           cs)
  end.

Definition item_document (item : Item) : Json :=
  match item with
  | IClause c =>
      clause_part (opt_json (field c)) (opt_json (operator c)) (value c)
  | IGroup h => group_part (JString (Logic_literal (logic h))) (document h)
  end.

(** Two trees that differ at most in their ids. *)
Inductive SameShape : Group -> Group -> Prop :=
| same_group (i1 i2 : string) (lg : Logic) (cs1 cs2 : list Item) :
    Forall2 SameItem cs1 cs2 ->
    SameShape (mkGroup i1 lg cs1) (mkGroup i2 lg cs2)
with SameItem : Item -> Item -> Prop :=
| same_clause (c1 c2 : Clause) :
    field c1 = field c2 ->
    operator c1 = operator c2 ->
    value c1 = value c2 ->
    SameItem (IClause c1) (IClause c2)
| same_nested (g1 g2 : Group) :
    SameShape g1 g2 -> SameItem (IGroup g1) (IGroup g2).

(** [TakesOut removed g g']: [g'] is [g] with the one entry [removed], a
    nested Group with everything below it, taken out of the children list it
    sits in; every other node of [g] is in [g'], where it was. *)
Inductive TakesOut (removed : Group) : Group -> Group -> Prop :=
| takes_child (i : string) (lg : Logic) (before after : list Item) :
    TakesOut removed
      (mkGroup i lg (before ++ IGroup removed :: after))
      (mkGroup i lg (before ++ after))
| takes_below (i : string) (lg : Logic) (before after : list Item)
    (h h' : Group) :
    TakesOut removed h h' ->
    TakesOut removed
      (mkGroup i lg (before ++ IGroup h :: after))
      (mkGroup i lg (before ++ IGroup h' :: after)).

(** ** Factories and classification *)

Lemma startsWith_c_uid (s : string) : startsWith ("c_" ++ s)%string "c_" = true.
Proof. reflexivity. Qed.

Lemma startsWith_c_gid (s : string) : startsWith ("g_" ++ s)%string "c_" = false.
Proof. reflexivity. Qed.

Lemma newClause_run (r : Rand) :
  newClause r = (mkClause ("c_" ++ r 0) None None (JString ""), fun n => r (S n)).
Proof. reflexivity. Qed.

Lemma newGroup_run (r : Rand) :
  newGroup r = (mkGroup ("g_" ++ r 0) AND [], fun n => r (S n)).
Proof. reflexivity. Qed.

Lemma addClause_run (group : Group) (r : Rand) :
  addClause group r =
  (mkGroup (gid group) (logic group)
     (clauses group ++ [IClause (mkClause ("c_" ++ r 0) None None (JString ""))]),
   fun n => r (S n)).
Proof. reflexivity. Qed.

Lemma addGroup_run (parent : Group) (r : Rand) :
  addGroup parent r =
  (mkGroup (gid parent) (logic parent)
     (clauses parent ++ [IGroup (mkGroup ("g_" ++ r 0) AND [])]),
   fun n => r (S n)).
Proof. reflexivity. Qed.

(** C8. Every node made by [newClause] is classified as a Clause by
    [isClause] and every node made by [newGroup] is not, whatever the random
    part of the id; and the classification depends on the id alone: two items
    with the same id are classified alike. *)
Theorem isClause_agrees_with_factory :
  (forall r : Rand, isClause (IClause (fst (newClause r))) = true)
  /\ (forall r : Rand, isClause (IGroup (fst (newGroup r))) = false)
  /\ (forall a b : Item, item_id a = item_id b -> isClause a = isClause b).
Proof.
  split; [| split].
  - intro r. rewrite newClause_run. apply startsWith_c_uid.
  - intro r. rewrite newGroup_run. apply startsWith_c_gid.
  - intros a b Hid. unfold isClause. now rewrite Hid.
Qed.

(** ** Clause rows: field change and catalog lookups *)

(** C6. Choosing a field in a clause row leaves the clause with that field,
    no operator and the empty string as value, whatever operator and value it
    had before; its id is kept.  The reset is all [onFieldChange] does, and it
    does it to every clause: it does not look at the field, the operator or
    the value it finds. *)
Theorem field_change_resets_operator_and_value :
  forall (clause : Clause) (newFieldKey : option string),
    let clause' := field_select_change clause newFieldKey in
    field clause' = newFieldKey
    /\ operator clause' = None
    /\ value clause' = JString ""
    /\ cid clause' = cid clause
    /\ onFieldChange clause
       = mkClause (cid clause) (field clause) None (JString "").
Proof.
  intros clause newFieldKey. cbn. repeat split.
Qed.

Example field_change_priority :
  field_select_change
    (mkClause "c_1" (Some "Title") (Some "equals") (JString "x"))
    (Some "Priority")
  = mkClause "c_1" (Some "Priority") None (JString "").
Proof. reflexivity. Qed.

Lemma find_none_iff (fld : option string) (cat : list Field) :
  find (key_is fld) cat = None <->
  match fld with
  | None => True
  | Some k => ~ In k (map key cat)
  end.
Proof.
  destruct fld as [k |]; cbn.
  - induction cat as [| x cat IH]; cbn.
    + tauto.
    + destruct (String.eqb_spec (key x) k) as [E | E].
      * split; [discriminate | intro H; exfalso; apply H; now left].
      * rewrite IH. tauto.
  - split; [trivial | intros _].
    induction cat as [| x cat IH]; cbn; trivial.
Qed.

Lemma find_unique_key (f : Field) (cat : list Field) :
  NoDup (map key cat) -> In f cat ->
  find (key_is (Some (key f))) cat = Some f.
Proof.
  induction cat as [| x cat IH]; cbn; intros Hnd Hin; [contradiction |].
  inversion Hnd as [| ? ? Hx Hnd']; subst.
  destruct Hin as [-> | Hin].
  - now rewrite String.eqb_refl.
  - destruct (String.eqb_spec (key x) (key f)) as [E | E].
    + exfalso. apply Hx. rewrite E. now apply in_map.
    + now apply IH.
Qed.

(** The literal the specification gives for a clause without a field,
    ["text"], is not what [valueInputType] returns: it returns ['string']. *)
Lemma valueInputType_default_is_not_text :
  let this := mkComponent DEFAULT_FIELDS (mkGroup "g_root" AND []) in
  let clause := mkClause "c_1" None None (JString "") in
  field clause = None
  /\ FieldType_literal (valueInputType this clause) = "string"
  /\ FieldType_literal (valueInputType this clause) <> "text".
Proof.
  cbn. repeat split. discriminate.
Qed.

(** C7 (amended). When the clause has no field, or its field is not a key of
    the catalog, [operatorsForClause] returns the empty list and
    [valueInputType] returns ['string']; when the field is the key of a field
    of a catalog with unique keys, they return that field's operator list and
    that field's type. *)
Theorem catalog_lookup :
  forall (this : Component) (clause : Clause),
    (match field clause with
     | None => True
     | Some k => ~ In k (map key (fields this))
     end ->
     operatorsForClause this clause = []
     /\ valueInputType this clause = Tstring
     /\ FieldType_literal (valueInputType this clause) = "string")
    /\ (forall f : Field,
          NoDup (map key (fields this)) ->
          In f (fields this) ->
          field clause = Some (key f) ->
          operatorsForClause this clause = operators f
          /\ valueInputType this clause = type f).
Proof.
  intros this clause. unfold operatorsForClause, valueInputType. split.
  - intro Habsent. apply find_none_iff in Habsent. rewrite Habsent. now cbn.
  - intros f Hnd Hin Hfield. rewrite Hfield.
    now rewrite (find_unique_key f (fields this) Hnd Hin).
Qed.

Lemma catalog_lookup_witness :
  let this := mkComponent DEFAULT_FIELDS (mkGroup "g_root" AND []) in
  let priority := mkField "Priority" "Priority" Tnumber ["="; "!="; "<"; ">"] in
  (operatorsForClause this (mkClause "c_1" None None (JString "")) = []
   /\ valueInputType this (mkClause "c_1" None None (JString "")) = Tstring)
  /\ (operatorsForClause this (mkClause "c_2" (Some "Severity") None (JString "")) = []
      /\ valueInputType this (mkClause "c_2" (Some "Severity") None (JString "")) = Tstring)
  /\ (operatorsForClause this (mkClause "c_3" (Some "Priority") None (JString ""))
      = ["="; "!="; "<"; ">"]
      /\ valueInputType this (mkClause "c_3" (Some "Priority") None (JString ""))
         = Tnumber).
Proof.
  intros this priority. split; [| split].
  - destruct (proj1 (catalog_lookup this (mkClause "c_1" None None (JString ""))) I)
      as (H1 & H2 & _).
    now split.
  - assert (Hno : ~ In "Severity" (map key (fields this))).
    { cbn. intros [H | [H | [H | [H | [H | [H | []]]]]]]; discriminate H. }
    destruct (proj1 (catalog_lookup this
                       (mkClause "c_2" (Some "Severity") None (JString ""))) Hno)
      as (H1 & H2 & _).
    now split.
  - apply (proj2 (catalog_lookup this
                    (mkClause "c_3" (Some "Priority") None (JString ""))) priority).
    + cbn. repeat constructor; cbn; intuition discriminate.
    + cbn. tauto.
    + reflexivity.
Defined.

(** ** Adding and removing children *)

Lemma splice_one_at (A : Type) (l1 l2 : list A) (x : A) :
  splice (l1 ++ x :: l2) (Z.of_nat (length l1)) 1 = l1 ++ l2.
Proof.
  unfold splice. rewrite length_app. cbn [length].
  set (n := length l1). set (m := length l2).
  assert (Hlt : (Z.of_nat n <? 0)%Z = false) by (apply Z.ltb_ge; lia).
  rewrite Hlt.
  replace (Z.min (Z.of_nat n) (Z.of_nat (n + S m))) with (Z.of_nat n) by lia.
  replace (Z.min (Z.max 1 0) (Z.of_nat (n + S m) - Z.of_nat n)) with 1%Z by lia.
  rewrite Nat2Z.id.
  replace (Z.to_nat (Z.of_nat n + 1)) with (S n) by lia.
  subst n. rewrite firstn_app, firstn_all, Nat.sub_diag. cbn [firstn].
  rewrite app_nil_r. f_equal.
  replace (S (length l1)) with (length (l1 ++ [x])) by (rewrite length_app; cbn; lia).
  replace (l1 ++ x :: l2) with ((l1 ++ [x]) ++ l2) by (now rewrite <- app_assoc).
  rewrite skipn_app, skipn_all, Nat.sub_diag. reflexivity.
Qed.

Lemma group_eta (g : Group) : mkGroup (gid g) (logic g) (clauses g) = g.
Proof. now destruct g. Qed.

(** C9. [addClause(group)] appends one child, the Clause that [newClause]
    has just made, at the index equal to the length the children list had
    before: the list grows by one and every earlier child stays at its index.
    [removeClause(group, i)] at that index then gives back the group as it
    was: the children list has its earlier length again, with the same
    children in the same positions (and the group the same id and logic). *)
Theorem addClause_then_removeClause :
  forall (group : Group) (r : Rand),
    let added := fst (addClause group r) in
    let i := length (clauses group) in
    clauses added = clauses group ++ [IClause (fst (newClause r))]
    /\ length (clauses added) = S i
    /\ nth_error (clauses added) i = Some (IClause (fst (newClause r)))
    /\ (forall (j : nat) (child : Item),
          nth_error (clauses group) j = Some child ->
          nth_error (clauses added) j = Some child)
    /\ gid added = gid group
    /\ logic added = logic group
    /\ removeClause added (Z.of_nat i) = group
    /\ length (clauses (removeClause added (Z.of_nat i))) = i.
Proof.
  intros group r added i. subst added i.
  rewrite addClause_run, newClause_run. cbn [fst clauses gid logic].
  assert (Hback :
            removeClause
              (mkGroup (gid group) (logic group)
                 (clauses group
                  ++ [IClause (mkClause ("c_" ++ r 0) None None (JString ""))]))
              (Z.of_nat (length (clauses group)))
            = group).
  { unfold removeClause. cbn [gid logic clauses].
    rewrite splice_one_at, app_nil_r. apply group_eta. }
  repeat split.
  - rewrite length_app. cbn [length]. lia.
  - rewrite nth_error_app2 by lia. now rewrite Nat.sub_diag.
  - intros j child Hj. rewrite nth_error_app1; [exact Hj |].
    apply nth_error_Some. now rewrite Hj.
  - exact Hback.
  - now rewrite Hback.
Qed.

(** ** Construction and [clear] *)

(** C10. After construction, and after [clear()] on any component, the root
    is a Group with logic AND and exactly one child, the Clause that
    [newClause] has just made: no field, no operator, the empty string as
    value.  The catalog is untouched by [clear]. *)
Theorem root_is_seeded_with_one_clause :
  (forall r : Rand,
     rootGroup (fst (constructor r))
     = mkGroup ("g_" ++ r 0) AND
         [IClause (mkClause ("c_" ++ r 1) None None (JString ""))])
  /\ (forall (this : Component) (r : Rand),
        rootGroup (fst (clear this r))
        = mkGroup ("g_" ++ r 0) AND
            [IClause (mkClause ("c_" ++ r 1) None None (JString ""))]
        /\ fields (fst (clear this r)) = fields this).
Proof.
  split.
  - intro r. reflexivity.
  - intros this r. split; reflexivity.
Qed.

(** ** Serialization *)

Lemma serializeGroup_eq (i : string) (lg : Logic) (cs : list Item) :
  serializeGroup (mkGroup i lg cs) =
  let (cs', r) := array_map serializePart cs in
  (mkGroup i lg cs',
   match r with
   | Return parts =>
       Return (JObject [("logic", JString (Logic_literal lg));
                        ("parts", JArray parts)])
   | Throw e => Throw e
   end).
Proof. reflexivity. Qed.

(** The parts of the scenario's document have no [kind] property: with the
    random draws ["k3j9x0q2a"], ["zz81hd7eq"] the document is not the one
    the specification writes. *)
Lemma scenario_document_has_no_kind :
  let r : Rand := fun n => match n with 0 => "k3j9x0q2a" | _ => "zz81hd7eq" end in
  snd (fst (scenario "g_root" r)) <> Return scenario_document_kind.
Proof.
  cbv. intro H. discriminate H.
Qed.

(** C1 (amended). From a root Group with logic AND and no children,
    [addClause(root)], [addGroup(root)] and [serializeGroup(root)] yield
    [{ logic: "AND", parts: [ {type:"clause", field:undefined,
    operator:undefined, value:""}, {type:"group", logic:"AND",
    group:{logic:"AND", parts:[]}} ] }], whatever ids are drawn: every part
    carries its discriminant, ["clause"] or ["group"], under [type]. *)
Theorem scenario_serializes :
  forall (rootId : string) (r : Rand),
    snd (fst (scenario rootId r)) = Return scenario_document_type
    /\ fst (fst (scenario rootId r))
       = mkGroup rootId AND
           [IClause (mkClause ("c_" ++ r 0) None None (JString ""));
            IGroup (mkGroup ("g_" ++ r 1) AND [])].
Proof.
  intros rootId r. split; reflexivity.
Qed.

Lemma array_map_fst (cs : list Item) :
  Forall (fun item => fst (serializePart item) = item) cs ->
  fst (array_map serializePart cs) = cs.
Proof.
  induction 1 as [| item rest Hitem _ IH]; cbn; [reflexivity |].
  destruct (serializePart item) as [item' r]. cbn in Hitem. subst item'.
  destruct r as [part | e]; [| reflexivity].
  destruct (array_map serializePart rest) as [rest' rs]. cbn in IH |- *.
  now rewrite IH.
Qed.

Lemma serializeGroup_leaves_tree (g : Group) : fst (serializeGroup g) = g.
Proof.
  induction g as [i lg cs IH] using Group_ind.
  rewrite serializeGroup_eq.
  assert (Hcs : fst (array_map serializePart cs) = cs).
  { apply array_map_fst. eapply Forall_impl; [| exact IH].
    intros [c | h] Hh; unfold serializePart.
    - destruct (isClause (IClause c)); reflexivity.
    - destruct (isClause (IGroup h)); [reflexivity |].
      cbn in Hh. destruct (serializeGroup h) as [h' r]. cbn in Hh |- *.
      now rewrite Hh. }
  destruct (array_map serializePart cs) as [cs' r]. cbn in Hcs |- *.
  now rewrite Hcs.
Qed.

(** C3. [serializeGroup] leaves the tree it is given as it was, whether it
    returns or throws, and a second call right after the first gives the same
    result as the first. *)
Theorem serializeGroup_is_pure :
  forall group : Group,
    fst (serializeGroup group) = group
    /\ snd (serializeGroup (fst (serializeGroup group)))
       = snd (serializeGroup group).
Proof.
  intro group. split.
  - apply serializeGroup_leaves_tree.
  - now rewrite serializeGroup_leaves_tree.
Qed.

Lemma array_map_parts (cs : list Item) :
  Forall (fun item =>
            forall part, snd (serializePart item) = Return part -> PartOf item part)
         cs ->
  forall parts,
    snd (array_map serializePart cs) = Return parts -> Forall2 PartOf cs parts.
Proof.
  induction 1 as [| item rest Hitem _ IH]; cbn; intros parts Hret.
  - injection Hret as <-. constructor.
  - destruct (serializePart item) as [item' [part | e]]; [| discriminate Hret].
    destruct (array_map serializePart rest) as [rest' [ps | e]];
      [| discriminate Hret].
    cbn in Hret. injection Hret as <-.
    constructor; [apply Hitem; reflexivity | apply IH; reflexivity].
Qed.

Lemma serializeGroup_document (g : Group) :
  forall doc, snd (serializeGroup g) = Return doc -> DocumentOf g doc.
Proof.
  induction g as [i lg cs IH] using Group_ind. intros doc Hret.
  rewrite serializeGroup_eq in Hret.
  assert (Hparts : forall parts,
             snd (array_map serializePart cs) = Return parts ->
             Forall2 PartOf cs parts).
  { apply array_map_parts. eapply Forall_impl; [| exact IH].
    intros item Hitem part. unfold serializePart.
    destruct (isClause item) eqn:Hc.
    - cbn. intro H. injection H as <-. now constructor.
    - destruct item as [c | h]; [discriminate |].
      cbn in Hitem. destruct (serializeGroup h) as [h' [d | e]];
        [| discriminate].
      cbn. intro H. injection H as <-.
      constructor; [exact Hc | apply Hitem; reflexivity]. }
  destruct (array_map serializePart cs) as [cs' [parts | e]];
    [| discriminate Hret].
  cbn in Hret. injection Hret as <-. constructor. now apply Hparts.
Qed.

Lemma array_map_returns (cs : list Item) :
  Forall (fun item => exists part, snd (serializePart item) = Return part) cs ->
  exists parts, snd (array_map serializePart cs) = Return parts.
Proof.
  induction 1 as [| item rest [part Hitem] _ [parts IH]]; cbn.
  - now exists [].
  - destruct (serializePart item) as [item' r]. cbn in Hitem. subst r.
    destruct (array_map serializePart rest) as [rest' rs]. cbn in IH. subst rs.
    now exists (part :: parts).
Qed.

Lemma serializeGroup_returns (g : Group) :
  tags_ok g = true -> exists doc, snd (serializeGroup g) = Return doc.
Proof.
  induction g as [i lg cs IH] using Group_ind. intro Htags.
  cbn [tags_ok] in Htags. rewrite forallb_forall in Htags.
  rewrite serializeGroup_eq.
  destruct (array_map_returns (cs := cs)) as [parts Hparts].
  { rewrite Forall_forall in IH |- *. intros item Hin.
    specialize (IH item Hin). specialize (Htags item Hin).
    unfold serializePart. destruct item as [c | h].
    - rewrite Htags. cbn. eexists. reflexivity.
    - apply andb_true_iff in Htags as [Hc Hh].
      apply negb_true_iff in Hc. rewrite Hc.
      destruct (IH Hh) as [d Hd].
      destruct (serializeGroup h) as [h' r]. cbn in Hd. subst r.
      cbn. eexists. reflexivity. }
  destruct (array_map serializePart cs) as [cs' r]. cbn in Hparts. subst r.
  cbn. eexists. reflexivity.
Qed.

(** C2. On a tree that follows the id convention [serializeGroup] returns a
    document, and whenever it returns one the document has exactly one part
    per child: the parts list is as long as the children list, the i-th part
    is the part of the i-th child, and the same holds of the document nested
    in every group part. *)
Theorem serializeGroup_parts_follow_children :
  forall G : Group,
    (tags_ok G = true -> exists doc, serializeGroup G = (G, Return doc))
    /\ (forall doc : Json,
          snd (serializeGroup G) = Return doc ->
          DocumentOf G doc
          /\ exists parts : list Json,
               doc = JObject [("logic", JString (Logic_literal (logic G)));
                              ("parts", JArray parts)]
               /\ length parts = length (clauses G)
               /\ forall (i : nat) (child : Item),
                    nth_error (clauses G) i = Some child ->
                    exists part,
                      nth_error parts i = Some part /\ PartOf child part).
Proof.
  intro G. split.
  - intro Htags. destruct (serializeGroup_returns G Htags) as [doc Hdoc].
    exists doc. rewrite (surjective_pairing (serializeGroup G)).
    now rewrite serializeGroup_leaves_tree, Hdoc.
  - intros doc Hret. pose proof (serializeGroup_document G Hret) as Hdoc.
    split; [exact Hdoc |].
    destruct Hdoc as [i lg cs parts Hparts]. exists parts. cbn.
    split; [reflexivity |]. split.
    + symmetry. eapply Forall2_length; eassumption.
    + clear Hret. induction Hparts as [| c p cs' ps Hcp _ IH];
        intros [| n] child Hn; cbn in Hn; try discriminate.
      * injection Hn as <-. exists p. now split.
      * now apply IH.
Qed.

Lemma serializeGroup_parts_follow_children_witness :
  let G :=
    mkGroup "g_root" OR
      [IClause (mkClause "c_1" (Some "Title") (Some "contains") (JString "bug"));
       IGroup (mkGroup "g_2" AND
                 [IClause (mkClause "c_3" (Some "Priority") (Some "<") (JNumber 3))]);
       IClause (mkClause "c_4" None None (JString ""))] in
  tags_ok G = true
  /\ (exists doc, serializeGroup G = (G, Return doc))
  /\ (forall doc,
        snd (serializeGroup G) = Return doc ->
        exists parts,
          doc = JObject [("logic", JString "OR"); ("parts", JArray parts)]
          /\ length parts = 3).
Proof.
  intro G. split; [reflexivity |]. split.
  - apply (proj1 (serializeGroup_parts_follow_children G)). reflexivity.
  - intros doc Hret.
    destruct (proj2 (serializeGroup_parts_follow_children G) doc Hret)
      as (_ & parts & Hdoc & Hlen & _).
    exists parts. now split.
Defined.

(** ** Removing a nested group *)

Lemma removeGroup_eq (t : Group) (i : string) (lg : Logic) (cs : list Item) :
  removeGroup t (mkGroup i lg cs) =
  let idx := findIndex (matches t) cs in
  if negb (idx =? -1)%Z then
    (mkGroup i lg (splice cs idx 1), Return tt)
  else
    let (cs', r) := for_of (removeGroup_body t) cs in
    (mkGroup i lg cs', r).
Proof. reflexivity. Qed.

Lemma findIndex_from_cases (A : Type) (p : A -> bool) (arr : list A) (i : Z) :
  (0 <= i)%Z ->
  (findIndex_from p arr i = (-1)%Z /\ forall x, In x arr -> p x = false)
  \/ (exists before x after,
        arr = before ++ x :: after
        /\ p x = true
        /\ (forall y, In y before -> p y = false)
        /\ findIndex_from p arr i = (i + Z.of_nat (length before))%Z).
Proof.
  revert i. induction arr as [| a arr IH]; intros i Hi; cbn.
  - left. split; [reflexivity | intros x []].
  - destruct (p a) eqn:Hpa.
    + right. exists [], a, arr. cbn. repeat split; [assumption | | lia].
      intros y [].
    + destruct (IH (i + 1)%Z ltac:(lia))
        as [[Hidx Hnone] | (before & x & after & -> & Hx & Hbefore & Hidx)].
      * left. split; [exact Hidx |]. intros x [<- | Hin]; auto.
      * right. exists (a :: before), x, after. cbn [length app].
        repeat split; [assumption | | lia].
        intros y [<- | Hin]; auto.
Qed.

Lemma item_id_in_item_ids (item : Item) : In (item_id item) (item_ids item).
Proof.
  destruct item as [c | [i lg cs]]; cbn; now left.
Qed.

Lemma in_item_ids_in_children (x : string) (item : Item) (cs : list Item) :
  In item cs -> In x (item_ids item) -> In x (flat_map item_ids cs).
Proof.
  intros Hin Hx. apply in_flat_map. now exists item.
Qed.

Lemma ids_eq (i : string) (lg : Logic) (cs : list Item) :
  ids (mkGroup i lg cs) = i :: flat_map item_ids cs.
Proof. reflexivity. Qed.

Lemma has_group_in_ids (tid : string) (g : Group) :
  has_group tid g = true -> In tid (flat_map item_ids (clauses g)).
Proof.
  induction g as [i lg cs IH] using Group_ind. cbn [has_group clauses].
  rewrite existsb_exists. intros (item & Hin & Hitem).
  rewrite Forall_forall in IH. specialize (IH item Hin).
  destruct item as [c | h]; [discriminate |].
  apply (@in_item_ids_in_children _ _ _ Hin).
  apply orb_true_iff in Hitem as [Hid | Hbelow].
  - apply String.eqb_eq in Hid. subst tid. apply (item_id_in_item_ids (IGroup h)).
  - cbn in IH |- *. destruct h as [j lh hs]. rewrite ids_eq. right.
    now apply IH.
Qed.

Lemma for_of_fst (A : Type) (body : A -> A * Outcome unit) (arr : list A) :
  Forall (fun x => fst (body x) = x) arr -> fst (for_of body arr) = arr.
Proof.
  induction 1 as [| x rest Hx _ IH]; cbn; [reflexivity |].
  destruct (body x) as [x' r]. cbn in Hx. subst x'.
  destruct r as [[] | e]; [| reflexivity].
  destruct (for_of body rest) as [rest' r']. cbn in IH |- *. now rewrite IH.
Qed.

(** When no node below [g] has the id of the target, [removeGroup] writes
    nothing, whether it returns or throws. *)
Lemma removeGroup_absent (t g : Group) :
  ~ In (gid t) (flat_map item_ids (clauses g)) -> fst (removeGroup t g) = g.
Proof.
  induction g as [i lg cs IH] using Group_ind. cbn [clauses]. intro Habsent.
  rewrite removeGroup_eq. cbv zeta.
  destruct (findIndex_from_cases (matches t) cs (i := 0) ltac:(lia))
    as [[Hidx Hnone] | (before & x & after & -> & Hx & _ & _)].
  - unfold findIndex. rewrite Hidx. cbn [Z.eqb negb].
    change (Z.neg 1 =? Z.neg 1)%Z with true. cbn [negb].
    assert (Hcs : fst (for_of (removeGroup_body t) cs) = cs).
    { apply for_of_fst. rewrite Forall_forall in IH |- *. intros item Hin.
      specialize (IH item Hin). unfold removeGroup_body.
      destruct (negb (isClause item)); [| reflexivity].
      destruct item as [c | h]; [reflexivity |].
      cbn in IH. destruct (removeGroup t h) as [h' r]. cbn in IH |- *.
      f_equal. apply IH.
      intro Hbelow. apply Habsent.
      apply (@in_item_ids_in_children _ _ _ Hin). cbn.
      destruct h as [j lh hs]. rewrite ids_eq. now right. }
    destruct (for_of (removeGroup_body t) cs) as [cs' r]. cbn in Hcs |- *.
    now rewrite Hcs.
  - exfalso. apply Habsent. unfold matches in Hx.
    apply andb_true_iff in Hx as [_ Hid]. apply String.eqb_eq in Hid.
    rewrite <- Hid. apply in_flat_map. exists x. split.
    + apply in_elt.
    + apply item_id_in_item_ids.
Qed.

Lemma NoDup_app_disjoint (A : Type) (l l' : list A) (a : A) :
  NoDup (l ++ l') -> In a l -> In a l' -> False.
Proof.
  intros Hnd Hl Hl'. apply in_split in Hl as (l1 & l2 & ->).
  rewrite <- app_assoc in Hnd. cbn in Hnd.
  apply NoDup_remove_2 in Hnd. apply Hnd.
  rewrite app_assoc. apply in_or_app. now right.
Qed.

Lemma existsb_agree (A : Type) (f g : A -> bool) (l : list A) :
  (forall x, In x l -> f x = g x) -> existsb f l = existsb g l.
Proof.
  induction l as [| x l IH]; cbn; intro H; [reflexivity |].
  rewrite (H x (or_introl eq_refl)), IH; [reflexivity |].
  intros y Hy. apply H. now right.
Qed.

Lemma tags_ok_eq (i : string) (lg : Logic) (cs : list Item) :
  tags_ok (mkGroup i lg cs) = forallb item_tags_ok cs.
Proof. reflexivity. Qed.

Lemma for_of_removal (t : Group) (cs : list Item) :
  Forall (P_item (Removal t)) cs ->
  NoDup (flat_map item_ids cs) ->
  forallb item_tags_ok cs = true ->
  exists cs',
    for_of (removeGroup_body t) cs = (cs', Return tt)
    /\ if existsb (item_has_group (gid t)) cs
       then exists before h h' after,
              cs = before ++ IGroup h :: after
              /\ cs' = before ++ IGroup h' :: after
              /\ (forall k, In (IGroup k) before -> has_group (gid t) k = false)
              /\ RemovesFirst (gid t) h h'
       else cs' = cs.
Proof.
  induction 1 as [| item rest Hitem _ IH]; intros Hnd Htags.
  - exists []. split; reflexivity.
  - cbn [flat_map] in Hnd. cbn [forallb] in Htags.
    apply andb_true_iff in Htags as [Htag Htags].
    specialize (IH (NoDup_app_remove_l _ _ Hnd) Htags).
    destruct IH as (rest' & Hrest & Hcase).
    destruct item as [c | h].
    + (* a Clause: the loop body skips it *)
      cbn in Htag. cbn [for_of]. unfold removeGroup_body at 1.
      rewrite Htag. cbn [negb]. rewrite Hrest.
      exists (IClause c :: rest'). split; [reflexivity |].
      cbn [existsb item_has_group orb].
      destruct (existsb (item_has_group (gid t)) rest).
      * destruct Hcase as (before & k & k' & after & -> & -> & Hbefore & Hrem).
        exists (IClause c :: before), k, k', after.
        repeat split; trivial.
        intros j [Hj | Hj]; [discriminate | auto].
      * now subst rest'.
    + (* a nested Group: the loop body recurses into it *)
      cbn in Htag. apply andb_true_iff in Htag as [Hc Hh].
      cbn in Hitem.
      destruct (Hitem (NoDup_app_remove_r _ _ Hnd) Hh) as (h' & Hrun & Hbelow).
      cbn [for_of]. unfold removeGroup_body at 1.
      rewrite Hc, Hrun.
      cbn [existsb item_has_group].
      destruct (has_group (gid t) h) eqn:Hhas.
      * (* found below [h]: nothing with that id can be further right *)
        assert (Hnone : existsb (item_has_group (gid t)) rest = false).
        { destruct (existsb (item_has_group (gid t)) rest) eqn:Hex;
            [exfalso | reflexivity].
          apply existsb_exists in Hex as (x & Hx & Hxhas).
          destruct x as [c | k]; [discriminate |]. cbn in Hxhas.
          apply (@NoDup_app_disjoint _ _ _ (gid t) Hnd).
          - cbn. destruct h as [j lh hs]. rewrite ids_eq. right.
            exact (has_group_in_ids _ _ Hhas).
          - apply (@in_item_ids_in_children _ _ _ Hx). cbn.
            destruct k as [j lk ks]. rewrite ids_eq. right.
            exact (has_group_in_ids _ _ Hxhas). }
        rewrite Hnone in Hcase. subst rest'. rewrite Hrest.
        exists (IGroup h' :: rest). split; [reflexivity |].
        cbn [orb]. exists [], h, h', rest.
        repeat split; trivial. intros k [].
      * subst h'. rewrite Hrest.
        exists (IGroup h :: rest'). split; [reflexivity |].
        cbn [orb].
        destruct (existsb (item_has_group (gid t)) rest).
        -- destruct Hcase as (before & k & k' & after & -> & -> & Hbefore & Hrem).
           exists (IGroup h :: before), k, k', after.
           repeat split; trivial.
           intros j [Hj | Hj]; [injection Hj as <-; exact Hhas | auto].
        -- now subst rest'.
Qed.

Lemma removeGroup_removal (t g : Group) : Removal t g.
Proof.
  induction g as [i lg cs IH] using Group_ind. intros Hnd Htags.
  rewrite ids_eq in Hnd. apply NoDup_cons_iff in Hnd as [_ Hnd].
  rewrite tags_ok_eq in Htags.
  assert (Hgroups : forall k, In (IGroup k) cs ->
                      matches t (IGroup k) = (gid k =? gid t)).
  { intros k Hk. rewrite forallb_forall in Htags.
    specialize (Htags _ Hk). cbn in Htags.
    apply andb_true_iff in Htags as [Hc _]. unfold matches. now rewrite Hc. }
  rewrite removeGroup_eq. cbv zeta. unfold findIndex.
  destruct (findIndex_from_cases (matches t) cs (i := 0) ltac:(lia))
    as [[Hidx Hnone] | (before & x & after & Hcs & Hx & Hbefore & Hidx)].
  - (* no child matches: descend *)
    rewrite Hidx. change (negb (-1 =? -1)%Z) with false. cbv iota.
    destruct (for_of_removal IH Hnd Htags) as (cs' & Hrun & Hcase).
    rewrite Hrun. exists (mkGroup i lg cs'). split; [reflexivity |].
    assert (Hdirect : forall k, In (IGroup k) cs -> gid k <> gid t).
    { intros k Hk. apply String.eqb_neq.
      rewrite <- (Hgroups k Hk). now apply Hnone. }
    assert (Hhas : has_group (gid t) (mkGroup i lg cs)
                   = existsb (item_has_group (gid t)) cs).
    { cbn [has_group]. apply existsb_agree. intros [c | k] Hk; [reflexivity |].
      cbn. pose proof (Hdirect k Hk) as Hneq.
      apply String.eqb_neq in Hneq. now rewrite Hneq. }
    rewrite Hhas. destruct (existsb (item_has_group (gid t)) cs).
    + destruct Hcase as (bef & h & h' & aft & -> & -> & Hbef & Hrem).
      now apply removes_below.
    + now subst cs'.
  - (* a child matches: splice it out *)
    rewrite Hidx.
    replace (negb (0 + Z.of_nat (length before) =? -1)%Z) with true
      by (symmetry; apply negb_true_iff, Z.eqb_neq; lia).
    cbv iota. subst cs. cbn [Z.add]. rewrite splice_one_at.
    exists (mkGroup i lg (before ++ after)). split; [reflexivity |].
    assert (Hxg : exists h, x = IGroup h /\ gid h = gid t).
    { destruct x as [c | h].
      - exfalso. rewrite forallb_forall in Htags.
        specialize (Htags (IClause c) (in_elt _ _ _)). cbn in Htags.
        unfold matches in Hx. rewrite Htags in Hx. discriminate.
      - exists h. split; [reflexivity |].
        rewrite (Hgroups h (in_elt _ _ _)) in Hx. now apply String.eqb_eq. }
    destruct Hxg as (h & -> & Hid).
    assert (Hhas : has_group (gid t) (mkGroup i lg (before ++ IGroup h :: after))
                   = true).
    { cbn [has_group]. rewrite existsb_app. cbn [existsb].
      rewrite Hid, String.eqb_refl. cbn. apply orb_true_r. }
    rewrite Hhas. apply removes_child; [exact Hid |].
    intros k Hk. apply String.eqb_neq.
    rewrite <- (Hgroups k); [now apply Hbefore |].
    apply in_or_app. now left.
Qed.

(** C4. On a well-formed tree (all ids distinct, ids following the factories'
    convention) [removeGroup(targetGroup, searchRoot)] returns, and it takes
    out at most one entry: none when no Group below [searchRoot] has the
    target's id, and otherwise exactly the first such Group, looked for among
    the children of a Group before descending into them; every other node
    stays where it was. *)
Theorem removeGroup_removes_first_match :
  forall targetGroup searchRoot : Group,
    NoDup (ids searchRoot) ->
    tags_ok searchRoot = true ->
    exists result : Group,
      removeGroup targetGroup searchRoot = (result, Return tt)
      /\ if has_group (gid targetGroup) searchRoot
         then RemovesFirst (gid targetGroup) searchRoot result
         else result = searchRoot.
Proof.
  intros targetGroup searchRoot. apply removeGroup_removal.
Qed.

Example removeGroup_nested :
  removeGroup (mkGroup "g_4" AND []) sample_tree
  = (mkGroup "g_root" AND
       [IClause (mkClause "c_1" (Some "Title") (Some "contains") (JString "bug"));
        IGroup (mkGroup "g_2" OR
                  [IClause (mkClause "c_3" None None (JString ""))]);
        IGroup (mkGroup "g_6" AND [])],
     Return tt).
Proof. reflexivity. Qed.

Lemma sample_tree_ids_distinct : NoDup (ids sample_tree).
Proof.
  cbn. repeat constructor; cbn; intuition discriminate.
Qed.

Lemma removeGroup_removes_first_match_witness :
  exists result : Group,
    removeGroup (mkGroup "g_4" AND []) sample_tree = (result, Return tt)
    /\ RemovesFirst "g_4" sample_tree result.
Proof.
  destruct (removeGroup_removes_first_match (mkGroup "g_4" AND []) sample_tree
              sample_tree_ids_distinct eq_refl)
    as (result & Hrun & Hcase).
  exists result. split; [exact Hrun | exact Hcase].
Defined.

(** C5. On a tree whose ids are all distinct, [removeGroup(root, root)]
    leaves the whole tree as it was, whether it returns or throws, and on a
    tree that also follows the id convention it returns; the same holds of
    the call [removeGroup(root)] that searches from [this.rootGroup]. *)
Theorem removeGroup_root_unchanged :
  forall root : Group,
    NoDup (ids root) ->
    fst (removeGroup root root) = root
    /\ (tags_ok root = true -> removeGroup root root = (root, Return tt))
    /\ (forall this : Component,
          rootGroup this = root ->
          fst (removeGroup_default this root) = this).
Proof.
  intros root Hnd.
  assert (Habsent : ~ In (gid root) (flat_map item_ids (clauses root))).
  { destruct root as [i lg cs]. rewrite ids_eq in Hnd.
    now apply NoDup_cons_iff in Hnd as [Hi _]. }
  pose proof (removeGroup_absent root root Habsent) as Hfst.
  split; [exact Hfst | split].
  - intro Htags.
    destruct (removeGroup_removal root root Hnd Htags)
      as (result & Hrun & _).
    rewrite Hrun in Hfst |- *. cbn in Hfst. now subst result.
  - intros [cat rg] Hroot. cbn in Hroot. subst rg.
    unfold removeGroup_default. cbn [rootGroup fields].
    destruct (removeGroup root root) as [root' r]. cbn in Hfst |- *.
    now subst root'.
Qed.

Lemma removeGroup_root_unchanged_witness :
  fst (removeGroup sample_tree sample_tree) = sample_tree
  /\ removeGroup sample_tree sample_tree = (sample_tree, Return tt)
  /\ fst (removeGroup_default (mkComponent DEFAULT_FIELDS sample_tree) sample_tree)
     = mkComponent DEFAULT_FIELDS sample_tree.
Proof.
  destruct (removeGroup_root_unchanged sample_tree sample_tree_ids_distinct)
    as (Hfst & Hrun & Hdefault).
  split; [exact Hfst | split; [exact (Hrun eq_refl) |]].
  apply Hdefault. reflexivity.
Defined.

(** Without distinct ids the root's own id can be found below it: a nested
    Group that shares the id is taken out. *)
Example removeGroup_root_id_collision :
  let root := mkGroup "g_a" AND [IGroup (mkGroup "g_a" OR [])] in
  removeGroup root root = (mkGroup "g_a" AND [], Return tt).
Proof. reflexivity. Qed.

(** ** The id convention is kept by the component *)

Lemma addClause_tags_ok (group : Group) (r : Rand) :
  tags_ok group = true -> tags_ok (fst (addClause group r)) = true.
Proof.
  destruct group as [i lg cs]. rewrite addClause_run. cbn [fst gid logic clauses].
  rewrite !tags_ok_eq, forallb_app. intros ->. reflexivity.
Qed.

Lemma addGroup_tags_ok (parent : Group) (r : Rand) :
  tags_ok parent = true -> tags_ok (fst (addGroup parent r)) = true.
Proof.
  destruct parent as [i lg cs]. rewrite addGroup_run. cbn [fst gid logic clauses].
  rewrite !tags_ok_eq, forallb_app. intros ->. reflexivity.
Qed.

Lemma constructor_tags_ok (r : Rand) :
  tags_ok (rootGroup (fst (constructor r))) = true.
Proof. reflexivity. Qed.

Lemma clear_tags_ok (this : Component) (r : Rand) :
  tags_ok (rootGroup (fst (clear this r))) = true.
Proof. reflexivity. Qed.

Lemma forallb_firstn_skipn (A : Type) (f : A -> bool) (n : nat) (l : list A) :
  forallb f l = true ->
  forallb f (firstn n l) = true /\ forallb f (skipn n l) = true.
Proof.
  intro H. rewrite <- (firstn_skipn n l), forallb_app in H.
  now apply andb_true_iff in H.
Qed.

Lemma removeClause_tags_ok (group : Group) (index : Z) :
  tags_ok group = true -> tags_ok (removeClause group index) = true.
Proof.
  destruct group as [i lg cs]. unfold removeClause, splice.
  cbn [gid logic clauses]. rewrite !tags_ok_eq. intro H.
  rewrite forallb_app. apply andb_true_iff. split.
  - now apply forallb_firstn_skipn.
  - now apply forallb_firstn_skipn.
Qed.

Lemma RemovesFirst_gid (tid : string) (g g' : Group) :
  RemovesFirst tid g g' -> gid g' = gid g.
Proof. now destruct 1. Qed.

Lemma RemovesFirst_tags_ok (tid : string) (g g' : Group) :
  RemovesFirst tid g g' -> tags_ok g = true -> tags_ok g' = true.
Proof.
  induction 1 as [i lg before after h Hid Hbefore
                 | i lg before after h h' Hdirect Hbefore Hrem IH];
    rewrite !tags_ok_eq, !forallb_app; cbn [forallb];
    rewrite !andb_true_iff; intros (Hb & Hh & Ha).
  - now split.
  - repeat split; trivial.
    unfold item_tags_ok, isClause in Hh |- *. cbn [item_id] in Hh |- *.
    rewrite (RemovesFirst_gid Hrem).
    apply andb_true_iff in Hh as [Hc Hh]. rewrite Hc. now apply IH.
Qed.

Lemma removeGroup_tags_ok (t g : Group) :
  NoDup (ids g) -> tags_ok g = true -> tags_ok (fst (removeGroup t g)) = true.
Proof.
  intros Hnd Htags.
  destruct (removeGroup_removal t g Hnd Htags) as (result & Hrun & Hcase).
  rewrite Hrun. cbn [fst]. destruct (has_group (gid t) g).
  - exact (RemovesFirst_tags_ok Hcase Htags).
  - now subst result.
Qed.

(** ** Removing a child by index: every index *)

Lemma splice_cut (A : Type) (arr : list A) (start deleteCount : Z) :
  let len := Z.of_nat (length arr) in
  let actualStart :=
    if (start <? 0)%Z then Z.max (len + start) 0 else Z.min start len in
  let actualDeleteCount := Z.min (Z.max deleteCount 0) (len - actualStart) in
  exists l1 m l2,
    arr = l1 ++ m ++ l2
    /\ splice arr start deleteCount = l1 ++ l2
    /\ Z.of_nat (length l1) = actualStart
    /\ Z.of_nat (length m) = actualDeleteCount.
Proof.
  intros len actualStart actualDeleteCount.
  assert (Hs : (0 <= actualStart <= len)%Z).
  { subst actualStart len. destruct (start <? 0)%Z eqn:E; lia. }
  assert (Hd : (0 <= actualDeleteCount <= len - actualStart)%Z).
  { subst actualDeleteCount. lia. }
  exists (firstn (Z.to_nat actualStart) arr),
    (firstn (Z.to_nat actualDeleteCount) (skipn (Z.to_nat actualStart) arr)),
    (skipn (Z.to_nat actualDeleteCount) (skipn (Z.to_nat actualStart) arr)).
  repeat split.
  - now rewrite !firstn_skipn.
  - unfold splice. fold len. fold actualStart. fold actualDeleteCount.
    f_equal. rewrite skipn_skipn. f_equal. lia.
  - rewrite length_firstn. subst len. lia.
  - rewrite length_firstn, length_skipn. subst len. lia.
Qed.

Lemma splice_negative (A : Type) (arr : list A) (start deleteCount : Z) :
  (start < 0)%Z ->
  splice arr start deleteCount
  = splice arr (Z.max (Z.of_nat (length arr) + start) 0) deleteCount.
Proof.
  intro Hneg. unfold splice.
  set (len := Z.of_nat (length arr)).
  assert (E1 : (start <? 0)%Z = true) by (apply Z.ltb_lt; lia).
  assert (E2 : (Z.max (len + start) 0 <? 0)%Z = false) by (apply Z.ltb_ge; lia).
  rewrite E1, E2.
  replace (Z.min (Z.max (len + start) 0) len) with (Z.max (len + start) 0)
    by lia.
  reflexivity.
Qed.

(** X1. [removeClause(group, index)] with an index inside the children list
    takes out exactly the child at that index: the children before it and
    after it stay, in their order, and the group keeps its id and logic. *)
Theorem removeClause_in_range :
  forall (i : string) (lg : Logic) (before after : list Item) (x : Item),
    removeClause (mkGroup i lg (before ++ x :: after))
      (Z.of_nat (length before))
    = mkGroup i lg (before ++ after).
Proof.
  intros i lg before after x. unfold removeClause. cbn [gid logic clauses].
  now rewrite splice_one_at.
Qed.

(** X2. [removeClause(group, index)] with an index at or past the end of the
    children list changes nothing and does not fail. *)
Theorem removeClause_past_end :
  forall (group : Group) (index : Z),
    (Z.of_nat (length (clauses group)) <= index)%Z ->
    removeClause group index = group.
Proof.
  intros [i lg cs] index Hpast. unfold removeClause. cbn [gid logic clauses] in *.
  destruct (splice_cut cs index 1) as (l1 & m & l2 & Hcs & Hsplice & _ & Hm).
  assert (E : (index <? 0)%Z = false) by (apply Z.ltb_ge; lia).
  rewrite E in Hm.
  assert (Hnil : m = []) by (destruct m; [reflexivity | cbn in Hm; lia]).
  subst m. cbn in Hcs. now rewrite Hsplice, <- Hcs.
Qed.

Lemma removeClause_past_end_witness :
  removeClause sample_tree 3 = sample_tree
  /\ removeClause (mkGroup "g_1" OR []) 0 = mkGroup "g_1" OR [].
Proof.
  split.
  - apply removeClause_past_end. cbn. lia.
  - apply removeClause_past_end. cbn. lia.
Defined.

(** X3. A negative index counts from the end of the children list:
    [removeClause(group, -k)] takes out the k-th child from the end, and an
    index below minus the length takes out the first child. *)
Theorem removeClause_negative_index :
  forall (i : string) (lg : Logic) (before after : list Item) (x : Item)
         (index : Z),
    (index = - Z.of_nat (S (length after))
     \/ (before = [] /\ index <= - Z.of_nat (S (length after))))%Z ->
    removeClause (mkGroup i lg (before ++ x :: after)) index
    = mkGroup i lg (before ++ after).
Proof.
  intros i lg before after x index Hindex.
  unfold removeClause. cbn [gid logic clauses]. f_equal.
  rewrite splice_negative by lia.
  rewrite length_app. cbn [length].
  replace (Z.max (Z.of_nat (length before + S (length after)) + index) 0)
    with (Z.of_nat (length before)).
  - apply splice_one_at.
  - destruct Hindex as [-> | [-> Hlow]]; cbn [length]; lia.
Qed.

Lemma removeClause_negative_index_witness :
  removeClause
    (mkGroup "g_1" AND
       [IGroup (mkGroup "g_2" AND []); IGroup (mkGroup "g_3" OR []);
        IGroup (mkGroup "g_4" AND [])])
    (-2)
  = mkGroup "g_1" AND [IGroup (mkGroup "g_2" AND []); IGroup (mkGroup "g_4" AND [])]
  /\ removeClause
       (mkGroup "g_1" AND
          [IGroup (mkGroup "g_2" AND []); IGroup (mkGroup "g_3" OR [])])
       (-7)
     = mkGroup "g_1" AND [IGroup (mkGroup "g_3" OR [])].
Proof.
  split.
  - apply (@removeClause_negative_index "g_1" AND
             [IGroup (mkGroup "g_2" AND [])] [IGroup (mkGroup "g_4" AND [])]
             (IGroup (mkGroup "g_3" OR [])) (-2)%Z).
    left. reflexivity.
  - apply (@removeClause_negative_index "g_1" AND
             [] [IGroup (mkGroup "g_3" OR [])]
             (IGroup (mkGroup "g_2" AND [])) (-7)%Z).
    right. split; [reflexivity | cbn; lia].
Defined.

(** X4. [removeClause] takes out one child when the group has children and
    the index is below their number (every negative index included), and
    none otherwise; it never takes out more than one. *)
Theorem removeClause_length :
  forall (group : Group) (index : Z),
    let len := length (clauses group) in
    length (clauses (removeClause group index))
    = if (index <? Z.of_nat len)%Z && (0 <? len)%nat then len - 1 else len.
Proof.
  intros [i lg cs] index. cbn [clauses removeClause gid logic]. cbv zeta.
  destruct (splice_cut cs index 1) as (l1 & m & l2 & Hcs & Hsplice & Hl1 & Hm).
  rewrite Hsplice.
  assert (Hlen : length cs = length l1 + length m + length l2).
  { rewrite Hcs at 1. rewrite !length_app. lia. }
  rewrite length_app.
  destruct (index <? Z.of_nat (length cs))%Z eqn:E1;
    destruct (0 <? length cs)%nat eqn:E2; cbn [andb];
    try apply Z.ltb_lt in E1; try apply Z.ltb_ge in E1;
    try apply Nat.ltb_lt in E2; try apply Nat.ltb_ge in E2;
    destruct (index <? 0)%Z eqn:E3;
    try apply Z.ltb_lt in E3; try apply Z.ltb_ge in E3; lia.
Qed.

(** ** Removing a group: hits, misses and what is kept *)

Lemma findIndex_from_hit (A : Type) (p : A -> bool) (before after : list A)
    (x : A) (i : Z) :
  p x = true ->
  (forall y, In y before -> p y = false) ->
  findIndex_from p (before ++ x :: after) i = (i + Z.of_nat (length before))%Z.
Proof.
  intros Hx. revert i. induction before as [| b before IH]; intros i Hbefore.
  - cbn. rewrite Hx. lia.
  - cbn [app findIndex_from]. rewrite (Hbefore b (or_introl eq_refl)).
    rewrite IH by (intros y Hy; apply Hbefore; now right).
    cbn [length]. lia.
Qed.

Lemma removeGroup_hit (t : Group) (i : string) (lg : Logic)
    (before after : list Item) (x : Item) :
  matches t x = true ->
  (forall y, In y before -> matches t y = false) ->
  removeGroup t (mkGroup i lg (before ++ x :: after))
  = (mkGroup i lg (before ++ after), Return tt).
Proof.
  intros Hx Hbefore. rewrite removeGroup_eq. cbv zeta. unfold findIndex.
  rewrite (@findIndex_from_hit _ (matches t) before after x 0 Hx Hbefore).
  replace (negb (0 + Z.of_nat (length before) =? -1)%Z) with true
    by (symmetry; apply negb_true_iff, Z.eqb_neq; lia).
  cbn [Z.add]. now rewrite splice_one_at.
Qed.

(** X5. When a child of [parentGroup] has the target's id and is not taken
    for a Clause, [removeGroup] takes out the first such child and nothing
    else, and returns: the nested Groups are not searched, so nothing further
    down is touched, whatever the rest of the tree looks like. *)
Theorem removeGroup_direct_child :
  forall (groupToRemove : Group) (i : string) (lg : Logic)
         (before after : list Item) (x : Item),
    isClause x = false ->
    item_id x = gid groupToRemove ->
    (forall y, In y before ->
       isClause y = true \/ item_id y <> gid groupToRemove) ->
    removeGroup groupToRemove (mkGroup i lg (before ++ x :: after))
    = (mkGroup i lg (before ++ after), Return tt).
Proof.
  intros t i lg before after x Hc Hid Hbefore.
  apply removeGroup_hit.
  - unfold matches. rewrite Hc, Hid, String.eqb_refl. reflexivity.
  - intros y Hy. unfold matches.
    destruct (Hbefore y Hy) as [Hyc | Hyid].
    + now rewrite Hyc.
    + apply String.eqb_neq in Hyid. rewrite Hyid. apply andb_false_r.
Qed.

Lemma removeGroup_direct_child_witness :
  removeGroup (mkGroup "g_6" OR [])
    (mkGroup "g_root" AND
       ([IClause (mkClause "c_1" None None (JString ""));
         IGroup (mkGroup "g_2" OR [IGroup (mkGroup "g_6" AND [])])]
        ++ IGroup (mkGroup "g_6" AND []) :: []))
  = (mkGroup "g_root" AND
       ([IClause (mkClause "c_1" None None (JString ""));
         IGroup (mkGroup "g_2" OR [IGroup (mkGroup "g_6" AND [])])] ++ []),
     Return tt).
Proof.
  apply removeGroup_direct_child.
  - reflexivity.
  - reflexivity.
  - intros y [<- | [<- | []]].
    + left. reflexivity.
    + right. cbn. discriminate.
Defined.

(** X6. [addGroup(parent)] followed by [removeGroup] of the Group just added
    gives back [parent] as it was, provided no child of [parent] already
    carries the id drawn for the new Group. *)
Theorem addGroup_then_removeGroup :
  forall (parent : Group) (r : Rand),
    (forall y, In y (clauses parent) -> item_id y <> ("g_" ++ r 0)%string) ->
    removeGroup (mkGroup ("g_" ++ r 0) AND []) (fst (addGroup parent r))
    = (parent, Return tt).
Proof.
  intros [i lg cs] r Hfresh. rewrite addGroup_run.
  cbn [fst gid logic clauses].
  rewrite removeGroup_hit.
  - now rewrite app_nil_r.
  - unfold matches, isClause. cbn [item_id gid].
    rewrite startsWith_c_gid, String.eqb_refl. reflexivity.
  - intros y Hy. unfold matches. cbn [gid].
    pose proof (Hfresh y Hy) as Hneq. apply String.eqb_neq in Hneq.
    rewrite Hneq. apply andb_false_r.
Qed.

Lemma addGroup_then_removeGroup_witness :
  let r : Rand := fun _ => "q7w8e9r0t" in
  removeGroup (mkGroup "g_q7w8e9r0t" AND []) (fst (addGroup sample_tree r))
  = (sample_tree, Return tt).
Proof.
  intro r. apply (@addGroup_then_removeGroup sample_tree r).
  intros y [<- | [<- | [<- | []]]]; cbn; discriminate.
Defined.

(** X7. When an earlier child Group already carries the id drawn for the
    new Group, removing the new Group by [removeGroup] takes out that earlier
    child, with everything below it, and leaves the new, empty Group in the
    tree. *)
Theorem addGroup_id_collision :
  forall (i : string) (lg : Logic) (before after : list Item) (h : Group)
         (r : Rand),
    gid h = ("g_" ++ r 0)%string ->
    (forall y, In y before -> item_id y <> ("g_" ++ r 0)%string) ->
    removeGroup (mkGroup ("g_" ++ r 0) AND [])
      (fst (addGroup (mkGroup i lg (before ++ IGroup h :: after)) r))
    = (mkGroup i lg (before ++ after ++ [IGroup (mkGroup ("g_" ++ r 0) AND [])]),
       Return tt).
Proof.
  intros i lg before after h r Hid Hbefore. rewrite addGroup_run.
  cbn [fst gid logic clauses]. rewrite <- app_assoc. cbn [app].
  rewrite removeGroup_hit; [reflexivity | |].
  - unfold matches, isClause. cbn [item_id gid]. rewrite Hid.
    rewrite startsWith_c_gid, String.eqb_refl. reflexivity.
  - intros y Hy. unfold matches. cbn [gid].
    pose proof (Hbefore y Hy) as Hneq. apply String.eqb_neq in Hneq.
    rewrite Hneq. apply andb_false_r.
Qed.

Lemma addGroup_id_collision_witness :
  let r : Rand := fun _ => "2" in
  removeGroup (mkGroup "g_2" AND [])
    (fst (addGroup
            (mkGroup "g_root" AND
               ([IClause (mkClause "c_1" None None (JString ""))]
                ++ IGroup (mkGroup "g_2" OR
                             [IClause (mkClause "c_3" None None (JString ""))])
                   :: []))
            r))
  = (mkGroup "g_root" AND
       ([IClause (mkClause "c_1" None None (JString ""))]
        ++ [] ++ [IGroup (mkGroup "g_2" AND [])]),
     Return tt).
Proof.
  intro r.
  apply (@addGroup_id_collision "g_root" AND
           [IClause (mkClause "c_1" None None (JString ""))] []
           (mkGroup "g_2" OR [IClause (mkClause "c_3" None None (JString ""))])
           r).
  - reflexivity.
  - intros y [<- | []]. cbn. discriminate.
Defined.

Lemma removeGroup_gid (t g : Group) :
  gid (fst (removeGroup t g)) = gid g /\ logic (fst (removeGroup t g)) = logic g.
Proof.
  destruct g as [i lg cs]. rewrite removeGroup_eq. cbv zeta.
  destruct (negb (findIndex (matches t) cs =? -1)%Z); [now split |].
  destruct (for_of (removeGroup_body t) cs). now split.
Qed.

Lemma for_of_returns (A : Type) (body : A -> A * Outcome unit) (arr : list A) :
  Forall (fun x => snd (body x) = Return tt) arr ->
  snd (for_of body arr) = Return tt.
Proof.
  induction 1 as [| x rest Hx _ IH]; cbn; [reflexivity |].
  destruct (body x) as [x' r]. cbn in Hx. subst r.
  destruct (for_of body rest) as [rest' r']. exact IH.
Qed.

Lemma for_of_forallb (A : Type) (body : A -> A * Outcome unit)
    (ok : A -> bool) (arr : list A) :
  Forall (fun x => ok x = true -> ok (fst (body x)) = true) arr ->
  forallb ok arr = true ->
  forallb ok (fst (for_of body arr)) = true.
Proof.
  induction 1 as [| x rest Hx _ IH]; cbn; [trivial |].
  intro Hok. apply andb_true_iff in Hok as [Hokx Hrest].
  destruct (body x) as [x' r]. cbn in Hx.
  destruct r as [[] | e]; cbn.
  - destruct (for_of body rest) as [rest' r']. cbn in IH |- *.
    now rewrite Hx, IH.
  - now rewrite Hx, Hrest.
Qed.

Lemma removeGroup_returns (t g : Group) :
  tags_ok g = true -> snd (removeGroup t g) = Return tt.
Proof.
  induction g as [i lg cs IH] using Group_ind. intro Htags.
  rewrite tags_ok_eq, forallb_forall in Htags.
  rewrite removeGroup_eq. cbv zeta.
  destruct (negb (findIndex (matches t) cs =? -1)%Z); [reflexivity |].
  assert (Hloop : snd (for_of (removeGroup_body t) cs) = Return tt).
  { apply for_of_returns. rewrite Forall_forall in IH |- *.
    intros item Hin. specialize (IH item Hin). specialize (Htags item Hin).
    unfold removeGroup_body. destruct item as [c | h]; cbn in Htags.
    - now rewrite Htags.
    - apply andb_true_iff in Htags as [Hc Hh]. rewrite Hc.
      cbn in IH. specialize (IH Hh).
      destruct (removeGroup t h) as [h' r]. exact IH. }
  destruct (for_of (removeGroup_body t) cs) as [cs' r]. exact Hloop.
Qed.

Lemma removeGroup_tags_ok_any (t g : Group) :
  tags_ok g = true -> tags_ok (fst (removeGroup t g)) = true.
Proof.
  induction g as [i lg cs IH] using Group_ind. intro Htags.
  rewrite tags_ok_eq in Htags. rewrite removeGroup_eq. cbv zeta.
  destruct (negb (findIndex (matches t) cs =? -1)%Z).
  - cbn [fst]. rewrite tags_ok_eq. unfold splice. rewrite forallb_app.
    apply andb_true_iff. split; now apply forallb_firstn_skipn.
  - assert (Hloop : forallb item_tags_ok (fst (for_of (removeGroup_body t) cs))
                    = true).
    { apply for_of_forallb; [| exact Htags].
      rewrite Forall_forall in IH |- *. intros item Hin.
      specialize (IH item Hin). unfold removeGroup_body.
      destruct item as [c | h]; intro Hok.
      - destruct (negb (isClause (IClause c))); exact Hok.
      - cbn [item_tags_ok] in Hok. apply andb_true_iff in Hok as [Hc Hh].
        rewrite Hc. cbn in IH. specialize (IH Hh).
        pose proof (removeGroup_gid t h) as [Hgid _].
        destruct (removeGroup t h) as [h' r]. cbn [fst] in IH, Hgid |- *.
        cbn [item_tags_ok]. rewrite IH, andb_true_r.
        unfold isClause in Hc |- *. cbn [item_id] in Hc |- *.
        now rewrite Hgid. }
    destruct (for_of (removeGroup_body t) cs) as [cs' r]. cbn [fst] in Hloop |- *.
    now rewrite tags_ok_eq.
Qed.

(** X8. On a tree whose ids follow the factories' convention, [removeGroup]
    never throws, whatever the target and even when ids repeat; the tree it
    leaves still follows the convention, and [parentGroup] keeps its id and
    its logic. *)
Theorem removeGroup_never_throws :
  forall groupToRemove parentGroup : Group,
    tags_ok parentGroup = true ->
    snd (removeGroup groupToRemove parentGroup) = Return tt
    /\ tags_ok (fst (removeGroup groupToRemove parentGroup)) = true
    /\ gid (fst (removeGroup groupToRemove parentGroup)) = gid parentGroup
    /\ logic (fst (removeGroup groupToRemove parentGroup)) = logic parentGroup.
Proof.
  intros t g Htags. split; [| split].
  - now apply removeGroup_returns.
  - now apply removeGroup_tags_ok_any.
  - apply removeGroup_gid.
Qed.

Lemma removeGroup_never_throws_witness :
  snd (removeGroup (mkGroup "g_4" AND []) sample_tree) = Return tt
  /\ tags_ok (fst (removeGroup (mkGroup "g_4" AND []) sample_tree)) = true.
Proof.
  destruct (@removeGroup_never_throws (mkGroup "g_4" AND []) sample_tree eq_refl)
    as (Hret & Htags & _).
  now split.
Defined.

Lemma removeGroup_unmatched (t g : Group) :
  (forall x : Item, matches t x = false) -> fst (removeGroup t g) = g.
Proof.
  intro Hnever. induction g as [i lg cs IH] using Group_ind.
  rewrite removeGroup_eq. cbv zeta.
  destruct (findIndex_from_cases (matches t) cs (i := 0) ltac:(lia))
    as [[Hidx _] | (before & x & after & _ & Hx & _ & _)].
  - unfold findIndex. rewrite Hidx.
    change (negb (-1 =? -1)%Z) with false. cbv iota.
    assert (Hcs : fst (for_of (removeGroup_body t) cs) = cs).
    { apply for_of_fst. eapply Forall_impl; [| exact IH].
      intros item Hitem. unfold removeGroup_body.
      destruct (negb (isClause item)); [| reflexivity].
      destruct item as [c | h]; [reflexivity |].
      cbn in Hitem. destruct (removeGroup t h) as [h' r]. cbn in Hitem |- *.
      now rewrite Hitem. }
    destruct (for_of (removeGroup_body t) cs) as [cs' r]. cbn in Hcs |- *.
    now rewrite Hcs.
  - rewrite Hnever in Hx. discriminate.
Qed.

(** X9. A target whose id starts with [c_] is never found: [removeGroup]
    leaves every tree as it was, so no child that is taken for a Clause can
    be removed through it. *)
Theorem removeGroup_clause_id_target :
  forall groupToRemove parentGroup : Group,
    startsWith (gid groupToRemove) "c_" = true ->
    fst (removeGroup groupToRemove parentGroup) = parentGroup.
Proof.
  intros t g Hprefix. apply removeGroup_unmatched.
  intro x. unfold matches.
  destruct (String.eqb_spec (item_id x) (gid t)) as [E | E].
  - unfold isClause. rewrite E, Hprefix. reflexivity.
  - apply andb_false_r.
Qed.

Lemma removeGroup_clause_id_target_witness :
  fst (removeGroup (mkGroup "c_3" AND []) sample_tree) = sample_tree.
Proof.
  apply removeGroup_clause_id_target. reflexivity.
Defined.

(** X10. When no node below [parentGroup] carries the target's id,
    [removeGroup] leaves the tree as it was, whether it returns or throws;
    on a tree that follows the id convention it returns. *)
Theorem removeGroup_absent_target :
  forall groupToRemove parentGroup : Group,
    ~ In (gid groupToRemove) (flat_map item_ids (clauses parentGroup)) ->
    fst (removeGroup groupToRemove parentGroup) = parentGroup
    /\ (tags_ok parentGroup = true ->
        removeGroup groupToRemove parentGroup = (parentGroup, Return tt)).
Proof.
  intros t g Habsent.
  pose proof (removeGroup_absent t g Habsent) as Hfst.
  split; [exact Hfst |].
  intro Htags. pose proof (removeGroup_returns t g Htags) as Hret.
  destruct (removeGroup t g) as [g' r]. cbn in Hfst, Hret. now subst.
Qed.

Lemma removeGroup_absent_target_witness :
  removeGroup (mkGroup "g_9" AND []) sample_tree = (sample_tree, Return tt).
Proof.
  apply (@removeGroup_absent_target (mkGroup "g_9" AND []) sample_tree).
  - cbn. intuition discriminate.
  - reflexivity.
Defined.

(** ** Well-formedness as an invariant *)

Lemma ids_children_app (i : string) (lg : Logic) (cs1 cs2 : list Item) :
  ids (mkGroup i lg (cs1 ++ cs2))
  = ids (mkGroup i lg cs1) ++ flat_map item_ids cs2.
Proof.
  rewrite !ids_eq, flat_map_app. reflexivity.
Qed.

Lemma RemovesFirst_ids (tid : string) (g g' : Group) :
  RemovesFirst tid g g' ->
  exists l1 removed l2,
    gid removed = tid
    /\ ids g = l1 ++ ids removed ++ l2
    /\ ids g' = l1 ++ l2.
Proof.
  induction 1 as [i lg before after h Hid Hbefore
                 | i lg before after h h' Hdirect Hbefore Hrem IH].
  - exists (i :: flat_map item_ids before), h, (flat_map item_ids after).
    rewrite !ids_eq, !flat_map_app. cbn [flat_map item_ids].
    repeat split; trivial.
  - destruct IH as (l1 & removed & l2 & Hid & Hh & Hh').
    exists (i :: flat_map item_ids before ++ l1), removed,
      (l2 ++ flat_map item_ids after).
    rewrite !ids_eq, !flat_map_app. cbn [flat_map item_ids].
    rewrite Hh, Hh'. repeat split; trivial; cbn; now rewrite <- !app_assoc.
Qed.

Lemma NoDup_app_remove_mid (A : Type) (l1 m l2 : list A) :
  NoDup (l1 ++ m ++ l2) -> NoDup (l1 ++ l2).
Proof.
  induction m as [| a m IH]; cbn; [trivial |].
  intro H. apply NoDup_remove_1 in H. now apply IH.
Qed.

Lemma ids_head (g : Group) : In (gid g) (ids g).
Proof. destruct g as [i lg cs]. rewrite ids_eq. now left. Qed.

Lemma RemovesFirst_TakesOut (tid : string) (g g' : Group) :
  RemovesFirst tid g g' ->
  exists removed, gid removed = tid /\ TakesOut removed g g'.
Proof.
  induction 1 as [i lg before after h Hid Hbefore
                 | i lg before after h h' Hdirect Hbefore Hrem IH].
  - exists h. split; [exact Hid | constructor].
  - destruct IH as (removed & Hid & Htakes).
    exists removed. split; [exact Hid | now constructor].
Qed.

Lemma TakesOut_ids (removed g g' : Group) :
  TakesOut removed g g' ->
  exists l1 l2, ids g = l1 ++ ids removed ++ l2 /\ ids g' = l1 ++ l2.
Proof.
  induction 1 as [i lg before after | i lg before after h h' Htakes IH].
  - exists (i :: flat_map item_ids before), (flat_map item_ids after).
    rewrite !ids_eq, !flat_map_app. cbn [flat_map item_ids]. now split.
  - destruct IH as (l1 & l2 & Hh & Hh').
    exists (i :: flat_map item_ids before ++ l1),
      (l2 ++ flat_map item_ids after).
    rewrite !ids_eq, !flat_map_app. cbn [flat_map item_ids].
    rewrite Hh, Hh'. split; cbn; now rewrite <- !app_assoc.
Qed.

(** X11. On a well-formed tree in which a Group with the target's id occurs
    below [parentGroup], [removeGroup] takes out exactly one subtree, rooted
    at a Group with that id: the tree after is the tree before with that one
    entry gone from the children list it sat in and every other node in
    place, and the ids of the tree before are the ids of the tree after with
    that subtree's ids put back in one block. *)
Theorem removeGroup_removes_one_subtree :
  forall groupToRemove parentGroup : Group,
    well_formed parentGroup ->
    has_group (gid groupToRemove) parentGroup = true ->
    exists (result removed : Group) (l1 l2 : list string),
      removeGroup groupToRemove parentGroup = (result, Return tt)
      /\ gid removed = gid groupToRemove
      /\ TakesOut removed parentGroup result
      /\ ids parentGroup = l1 ++ ids removed ++ l2
      /\ ids result = l1 ++ l2.
Proof.
  intros t g [Hnd Htags] Hhas.
  destruct (removeGroup_removal t g Hnd Htags) as (result & Hrun & Hcase).
  rewrite Hhas in Hcase.
  destruct (RemovesFirst_TakesOut Hcase) as (removed & Hid & Htakes).
  destruct (TakesOut_ids Htakes) as (l1 & l2 & Hg & Hres).
  now exists result, removed, l1, l2.
Qed.

Lemma sample_tree_well_formed : well_formed sample_tree.
Proof.
  split; [exact sample_tree_ids_distinct | reflexivity].
Qed.

Lemma removeGroup_removes_one_subtree_witness :
  exists (result removed : Group) (l1 l2 : list string),
    removeGroup (mkGroup "g_2" AND []) sample_tree = (result, Return tt)
    /\ gid removed = "g_2"
    /\ TakesOut removed sample_tree result
    /\ ids sample_tree = l1 ++ ids removed ++ l2
    /\ ids result = l1 ++ l2.
Proof.
  apply (@removeGroup_removes_one_subtree (mkGroup "g_2" AND []) sample_tree).
  - exact sample_tree_well_formed.
  - reflexivity.
Defined.

(** X12. [removeGroup] keeps a well-formed tree well-formed, and afterwards
    no Group with the target's id is left below [parentGroup]. *)
Theorem removeGroup_keeps_well_formed :
  forall groupToRemove parentGroup : Group,
    well_formed parentGroup ->
    well_formed (fst (removeGroup groupToRemove parentGroup))
    /\ has_group (gid groupToRemove) (fst (removeGroup groupToRemove parentGroup))
       = false.
Proof.
  intros t g [Hnd Htags].
  destruct (removeGroup_removal t g Hnd Htags) as (result & Hrun & Hcase).
  rewrite Hrun. cbn [fst].
  destruct (has_group (gid t) g) eqn:Hhas.
  - destruct (RemovesFirst_ids Hcase) as (l1 & removed & l2 & Hid & Hg & Hres).
    assert (Hnd' : NoDup (ids result)).
    { rewrite Hres. apply (@NoDup_app_remove_mid _ l1 (ids removed) l2).
      now rewrite <- Hg. }
    split; [split |].
    + exact Hnd'.
    + exact (RemovesFirst_tags_ok Hcase Htags).
    + destruct (has_group (gid t) result) eqn:Hleft; [exfalso | reflexivity].
      apply has_group_in_ids in Hleft.
      assert (Hin : In (gid t) (l1 ++ l2)).
      { rewrite <- Hres. destruct result as [j lr rs]. rewrite ids_eq.
        right. exact Hleft. }
      rewrite Hg in Hnd.
      assert (Hmid : In (gid t) (ids removed))
        by (rewrite <- Hid; apply ids_head).
      apply in_app_or in Hin as [Hin | Hin].
      * apply (@NoDup_app_disjoint _ l1 (ids removed ++ l2) (gid t) Hnd Hin).
        apply in_or_app. now left.
      * apply NoDup_app_remove_l in Hnd.
        exact (@NoDup_app_disjoint _ (ids removed) l2 (gid t) Hnd Hmid Hin).
  - subst result. now repeat split.
Qed.

Lemma removeGroup_keeps_well_formed_witness :
  well_formed (fst (removeGroup (mkGroup "g_2" AND []) sample_tree))
  /\ has_group "g_2" (fst (removeGroup (mkGroup "g_2" AND []) sample_tree))
     = false.
Proof.
  apply (@removeGroup_keeps_well_formed (mkGroup "g_2" AND []) sample_tree).
  exact sample_tree_well_formed.
Defined.

Lemma NoDup_snoc (A : Type) (l : list A) (a : A) :
  NoDup (l ++ [a]) <-> NoDup l /\ ~ In a l.
Proof.
  split.
  - intro H. split.
    + now apply NoDup_app_remove_r in H.
    + intro Hin. apply (@NoDup_app_disjoint _ l [a] a H Hin). now left.
  - intros [Hnd Hnotin]. apply NoDup_app; trivial.
    + repeat constructor. intros [].
    + intros x Hx [<- | []]. contradiction.
Qed.

(** X13. [addClause] and [addGroup] keep a well-formed tree well-formed
    exactly when the id drawn for the new node is not yet in the tree. *)
Theorem add_keeps_well_formed_iff_fresh :
  forall (group : Group) (r : Rand),
    well_formed group ->
    (well_formed (fst (addClause group r))
     <-> ~ In ("c_" ++ r 0)%string (ids group))
    /\ (well_formed (fst (addGroup group r))
        <-> ~ In ("g_" ++ r 0)%string (ids group)).
Proof.
  intros [i lg cs] r [Hnd Htags]. rewrite addClause_run, addGroup_run.
  cbn [fst gid logic clauses]. unfold well_formed.
  rewrite !ids_children_app.
  change (flat_map item_ids
            [IClause (mkClause ("c_" ++ r 0) None None (JString ""))])
    with [("c_" ++ r 0)%string].
  change (flat_map item_ids [IGroup (mkGroup ("g_" ++ r 0) AND [])])
    with [("g_" ++ r 0)%string].
  rewrite !NoDup_snoc, !tags_ok_eq, !forallb_app.
  rewrite tags_ok_eq in Htags. rewrite Htags. cbn [forallb item_tags_ok tags_ok].
  unfold isClause. cbn [item_id cid gid].
  rewrite startsWith_c_uid, startsWith_c_gid. cbn. tauto.
Qed.

Lemma add_keeps_well_formed_iff_fresh_witness :
  let r : Rand := fun _ => "m4n5b6v7c" in
  well_formed (fst (addClause sample_tree r))
  /\ well_formed (fst (addGroup sample_tree r)).
Proof.
  intro r.
  destruct (@add_keeps_well_formed_iff_fresh sample_tree r sample_tree_well_formed)
    as [Hclause Hgroup].
  split.
  - apply Hclause. cbn. intuition discriminate.
  - apply Hgroup. cbn. intuition discriminate.
Defined.

Lemma splice_flat_map_NoDup (A B : Type) (f : A -> list B) (arr : list A)
    (start deleteCount : Z) :
  NoDup (flat_map f arr) -> NoDup (flat_map f (splice arr start deleteCount)).
Proof.
  destruct (splice_cut arr start deleteCount)
    as (l1 & m & l2 & Harr & Hsplice & _ & _).
  rewrite Hsplice, Harr, !flat_map_app. apply NoDup_app_remove_mid.
Qed.

(** X14. [removeClause] keeps a well-formed tree well-formed, for every
    index. *)
Theorem removeClause_keeps_well_formed :
  forall (group : Group) (index : Z),
    well_formed group -> well_formed (removeClause group index).
Proof.
  intros [i lg cs] index [Hnd Htags]. split.
  - unfold removeClause. cbn [gid logic clauses].
    rewrite ids_eq in Hnd |- *. apply NoDup_cons_iff in Hnd as [Hi Hnd].
    apply NoDup_cons.
    + intro Hin. apply Hi.
      destruct (splice_cut cs index 1) as (l1 & m & l2 & Hcs & Hsplice & _ & _).
      rewrite Hsplice in Hin. rewrite Hcs, !flat_map_app.
      rewrite flat_map_app in Hin.
      apply in_app_or in Hin as [Hin | Hin]; apply in_or_app;
        [now left | right; apply in_or_app; now right].
    + now apply splice_flat_map_NoDup.
  - now apply removeClause_tags_ok.
Qed.

Lemma removeClause_keeps_well_formed_witness :
  well_formed (removeClause sample_tree 1).
Proof.
  apply removeClause_keeps_well_formed. exact sample_tree_well_formed.
Defined.

(** X15. The tree that the constructor builds, and the tree that [clear]
    puts in place, is well-formed whatever [Math.random] returns: the root
    and its one clause cannot share an id, and both follow the id
    convention. *)
Theorem fresh_tree_is_well_formed :
  forall r : Rand,
    well_formed (rootGroup (fst (constructor r)))
    /\ forall this : Component, well_formed (rootGroup (fst (clear this r))).
Proof.
  intro r.
  assert (H : well_formed
                (mkGroup ("g_" ++ r 0) AND
                   [IClause (mkClause ("c_" ++ r 1) None None (JString ""))])).
  { split; [| reflexivity].
    cbn. repeat constructor; cbn; [| tauto].
    intros [Heq | []]. discriminate Heq. }
  split; [exact H | intro this; exact H].
Qed.

(** ** Serialization: when it throws, what it keeps, how it composes *)

Lemma array_map_outcome (cs : list Item) :
  Forall (fun item =>
            (item_dispatch_ok item = true ->
             exists part, snd (serializePart item) = Return part)
            /\ (item_dispatch_ok item = false ->
                snd (serializePart item) = Throw TypeError))
         cs ->
  (forallb item_dispatch_ok cs = true ->
   exists parts, snd (array_map serializePart cs) = Return parts)
  /\ (forallb item_dispatch_ok cs = false ->
      snd (array_map serializePart cs) = Throw TypeError).
Proof.
  induction 1 as [| item rest [Hok Hbad] _ [IHok IHbad]]; cbn [forallb array_map].
  - split; [intros _; now exists [] | discriminate].
  - destruct (item_dispatch_ok item) eqn:Hitem; cbn [andb].
    + destruct (Hok eq_refl) as [part Hpart].
      destruct (serializePart item) as [item' r]. cbn in Hpart. subst r.
      destruct (array_map serializePart rest) as [rest' rs]. cbn in IHok, IHbad |- *.
      split.
      * intro Hrest. destruct (IHok Hrest) as [parts ->]. now exists (part :: parts).
      * intro Hrest. now rewrite (IHbad Hrest).
    + split; [discriminate | intros _].
      specialize (Hbad eq_refl).
      destruct (serializePart item) as [item' r]. cbn in Hbad. now subst r.
Qed.

Lemma serializeGroup_outcome (g : Group) :
  (dispatch_ok g = true -> exists doc, snd (serializeGroup g) = Return doc)
  /\ (dispatch_ok g = false -> snd (serializeGroup g) = Throw TypeError).
Proof.
  induction g as [i lg cs IH] using Group_ind.
  change (dispatch_ok (mkGroup i lg cs)) with (forallb item_dispatch_ok cs).
  rewrite serializeGroup_eq.
  destruct (array_map_outcome (cs := cs)) as [Hok Hbad].
  { eapply Forall_impl; [| exact IH]. intros item Hitem.
    unfold item_dispatch_ok, serializePart.
    destruct (isClause item) eqn:Hc; cbn [orb].
    - split; [intros _; cbn; eexists; reflexivity | discriminate].
    - destruct item as [c | h].
      + split; [discriminate | reflexivity].
      + cbn in Hitem. destruct Hitem as [Hhok Hhbad].
        destruct (serializeGroup h) as [h' r]. cbn in Hhok, Hhbad |- *. split.
        * intro Hh. destruct (Hhok Hh) as [doc ->]. eexists. reflexivity.
        * intro Hh. now rewrite (Hhbad Hh). }
  destruct (array_map serializePart cs) as [cs' r]. cbn in Hok, Hbad |- *. split.
  - intro Hcs. destruct (Hok Hcs) as [parts ->]. eexists. reflexivity.
  - intro Hcs. now rewrite (Hbad Hcs).
Qed.

(** X16. [serializeGroup] throws a [TypeError] exactly when, on the way down
    through the children that are not taken for Clauses, it meets one that is
    in fact a Clause (a Clause whose id does not start with [c_]); in every
    other case it returns a document. *)
Theorem serializeGroup_throws_iff :
  forall group : Group,
    (dispatch_ok group = true ->
     exists doc, snd (serializeGroup group) = Return doc)
    /\ (dispatch_ok group = false ->
        snd (serializeGroup group) = Throw TypeError).
Proof.
  intro group. apply serializeGroup_outcome.
Qed.

Lemma serializeGroup_throws_iff_witness :
  (exists doc, snd (serializeGroup sample_tree) = Return doc)
  /\ snd (serializeGroup
            (mkGroup "g_root" AND
               [IGroup (mkGroup "g_1" OR
                          [IClause (mkClause "x_2" None None (JString ""))])]))
     = Throw TypeError.
Proof.
  split.
  - apply (proj1 (serializeGroup_throws_iff sample_tree)). reflexivity.
  - apply (proj2 (serializeGroup_throws_iff
                    (mkGroup "g_root" AND
                       [IGroup (mkGroup "g_1" OR
                                  [IClause (mkClause "x_2" None None
                                              (JString ""))])]))).
    reflexivity.
Defined.

Lemma array_map_total (A B : Type) (f : A -> A * Outcome B) (g : A -> B)
    (arr : list A) :
  Forall (fun x => snd (f x) = Return (g x)) arr ->
  snd (array_map f arr) = Return (map g arr).
Proof.
  induction 1 as [| x rest Hx _ IH]; cbn; [reflexivity |].
  destruct (f x) as [x' r]. cbn in Hx. subst r.
  destruct (array_map f rest) as [rest' rs]. cbn in IH |- *. now rewrite IH.
Qed.

Lemma serializeGroup_is_document (g : Group) :
  tags_ok g = true -> snd (serializeGroup g) = Return (document g).
Proof.
  induction g as [i lg cs IH] using Group_ind. intro Htags.
  rewrite tags_ok_eq, forallb_forall in Htags. rewrite serializeGroup_eq.
  assert (Hparts : snd (array_map serializePart cs)
                   = Return (map item_document cs)).
  { apply array_map_total. rewrite Forall_forall in IH |- *.
    intros item Hin. specialize (IH item Hin). specialize (Htags item Hin).
    unfold serializePart. destruct item as [c | h]; cbn [item_tags_ok] in Htags.
    - rewrite Htags. reflexivity.
    - apply andb_true_iff in Htags as [Hc Hh]. apply negb_true_iff in Hc.
      rewrite Hc. cbn in IH. specialize (IH Hh).
      destruct (serializeGroup h) as [h' r]. cbn in IH |- *. now rewrite IH. }
  destruct (array_map serializePart cs) as [cs' r]. cbn in Hparts |- *.
  now rewrite Hparts.
Qed.

Lemma opt_json_inj (a b : option string) : opt_json a = opt_json b -> a = b.
Proof.
  destruct a, b; cbn; intro H; try discriminate; [now injection H as -> | trivial].
Qed.

Lemma Logic_literal_inj (a b : Logic) : Logic_literal a = Logic_literal b -> a = b.
Proof. destruct a, b; cbn; intro H; try discriminate; reflexivity. Qed.

Lemma document_eq (i : string) (lg : Logic) (cs : list Item) :
  document (mkGroup i lg cs) = query_document lg (map item_document cs).
Proof. reflexivity. Qed.

Lemma document_determines_shape (g1 : Group) :
  forall g2, document g1 = document g2 -> SameShape g1 g2.
Proof.
  induction g1 as [i1 lg1 cs1 IH] using Group_ind. intros [i2 lg2 cs2].
  rewrite !document_eq. unfold query_document. intro H.
  injection H as Hlg Hparts. apply Logic_literal_inj in Hlg. subst lg2.
  constructor. revert cs2 Hparts.
  induction IH as [| x rest Hx _ IHrest]; intros [| y rest2] Hparts;
    cbn in Hparts; try discriminate; constructor.
  - injection Hparts as Hhead _.
    destruct x as [c1 | h1], y as [c2 | h2]; cbn in Hhead;
      unfold clause_part, group_part in Hhead; try discriminate.
    + injection Hhead as Hf Ho Hv.
      constructor; [now apply opt_json_inj | now apply opt_json_inj | exact Hv].
    + injection Hhead as _ Hdoc. constructor. now apply Hx.
  - apply IHrest. now injection Hparts.
Qed.

Lemma SameShape_logic (g1 g2 : Group) : SameShape g1 g2 -> logic g1 = logic g2.
Proof. now destruct 1. Qed.

Lemma shape_determines_document (g1 : Group) :
  forall g2, SameShape g1 g2 -> document g1 = document g2.
Proof.
  induction g1 as [i1 lg1 cs1 IH] using Group_ind. intros g2 Hshape.
  inversion Hshape as [j1 j2 lg ds1 cs2 Hitems]; subst.
  rewrite !document_eq. f_equal. clear Hshape.
  induction Hitems as [| x y rest1 rest2 Hxy _ IHitems]; [reflexivity |].
  inversion IH as [| ? ? Hx Hrest]; subst. cbn [map]. f_equal.
  - destruct Hxy as [c1 c2 Hf Ho Hv | h1 h2 Hh]; cbn [item_document].
    + now rewrite Hf, Ho, Hv.
    + cbn in Hx. now rewrite (Hx h2 Hh), (SameShape_logic Hh).
  - now apply IHitems.
Qed.

(** X17. On trees that follow the id convention the document does not depend
    on the ids and loses nothing else: two such trees serialize to the same
    document exactly when they differ at most in their ids (same logic, same
    children in the same order, clauses with the same field, operator and
    value). *)
Theorem serializeGroup_same_document_iff_same_shape :
  forall g1 g2 : Group,
    tags_ok g1 = true ->
    tags_ok g2 = true ->
    (snd (serializeGroup g1) = snd (serializeGroup g2) <-> SameShape g1 g2).
Proof.
  intros g1 g2 H1 H2.
  rewrite (serializeGroup_is_document g1 H1), (serializeGroup_is_document g2 H2).
  split.
  - intro H. injection H as H. now apply document_determines_shape.
  - intro H. f_equal. now apply shape_determines_document.
Qed.

Lemma serializeGroup_same_document_iff_same_shape_witness :
  snd (serializeGroup
         (mkGroup "g_a" OR
            [IClause (mkClause "c_b" (Some "State") (Some "equals") (JString "New"));
             IGroup (mkGroup "g_c" AND [])]))
  = snd (serializeGroup
           (mkGroup "g_x" OR
              [IClause (mkClause "c_y" (Some "State") (Some "equals") (JString "New"));
               IGroup (mkGroup "g_z" AND [])])).
Proof.
  apply (@serializeGroup_same_document_iff_same_shape
           (mkGroup "g_a" OR
              [IClause (mkClause "c_b" (Some "State") (Some "equals") (JString "New"));
               IGroup (mkGroup "g_c" AND [])])
           (mkGroup "g_x" OR
              [IClause (mkClause "c_y" (Some "State") (Some "equals") (JString "New"));
               IGroup (mkGroup "g_z" AND [])])
           eq_refl eq_refl).
  repeat constructor.
Defined.

Lemma array_map_app (A B : Type) (f : A -> A * Outcome B) (l1 l2 : list A) :
  snd (array_map f (l1 ++ l2))
  = match snd (array_map f l1) with
    | Throw e => Throw e
    | Return p1 =>
        match snd (array_map f l2) with
        | Throw e => Throw e
        | Return p2 => Return (p1 ++ p2)
        end
    end.
Proof.
  induction l1 as [| x l1 IH]; cbn [app array_map].
  - cbn. now destruct (snd (array_map f l2)).
  - destruct (f x) as [x' [b | e]]; [| reflexivity].
    destruct (array_map f (l1 ++ l2)) as [l' rs].
    destruct (array_map f l1) as [l1' r1]. cbn in IH |- *. subst rs.
    destruct r1 as [p1 | e]; [| reflexivity].
    now destruct (snd (array_map f l2)).
Qed.

Lemma array_map_pieces (A B : Type) (f : A -> A * Outcome B) (arr : list A) :
  forall ps,
    snd (array_map f arr) = Return ps ->
    length ps = length arr
    /\ forall n,
         snd (array_map f (firstn n arr)) = Return (firstn n ps)
         /\ snd (array_map f (skipn n arr)) = Return (skipn n ps).
Proof.
  induction arr as [| x arr IH]; cbn [array_map]; intros ps Hps.
  - cbn in Hps. injection Hps as <-. split; [reflexivity |].
    intros [| n]; split; reflexivity.
  - destruct (f x) as [x' [b | e]] eqn:Hfx; [| discriminate Hps].
    destruct (array_map f arr) as [arr' [bs | e]] eqn:Harr;
      [| discriminate Hps].
    cbn in Hps. injection Hps as <-.
    destruct (IH bs eq_refl) as [Hlen Hpieces].
    split; [cbn; now rewrite Hlen |].
    intros [| n]; cbn [firstn skipn array_map].
    + split; [reflexivity |]. now rewrite Hfx, Harr.
    + destruct (Hpieces n) as [Hfirst Hskip]. rewrite Hfx. split; [| exact Hskip].
      destruct (array_map f (firstn n arr)) as [l' rs]. cbn in Hfirst |- *.
      now rewrite Hfirst.
Qed.

Lemma array_map_splice (A B : Type) (f : A -> A * Outcome B) (arr : list A)
    (ps : list B) (start deleteCount : Z) :
  snd (array_map f arr) = Return ps ->
  snd (array_map f (splice arr start deleteCount))
  = Return (splice ps start deleteCount).
Proof.
  intro Hps. destruct (array_map_pieces f arr Hps) as [Hlen Hpieces].
  unfold splice. rewrite Hlen, array_map_app.
  rewrite (proj1 (Hpieces _)), (proj2 (Hpieces _)). reflexivity.
Qed.

Lemma serializeGroup_parts (i : string) (lg : Logic) (cs : list Item)
    (parts : list Json) :
  snd (serializeGroup (mkGroup i lg cs)) = Return (query_document lg parts)
  <-> snd (array_map serializePart cs) = Return parts.
Proof.
  rewrite serializeGroup_eq.
  destruct (array_map serializePart cs) as [cs' [ps | e]]; cbn; split; intro H;
    try discriminate.
  - unfold query_document in H. now injection H as ->.
  - now injection H as ->.
Qed.

(** X18. Adding a child adds one part at the end of the document and changes
    nothing else: after [addClause] the parts of the group are the parts it
    had, followed by an empty clause part; after [addGroup], followed by the
    part of an empty AND group. *)
Theorem serializeGroup_after_add :
  forall (group : Group) (r : Rand) (parts : list Json),
    snd (serializeGroup group) = Return (query_document (logic group) parts) ->
    snd (serializeGroup (fst (addClause group r)))
    = Return (query_document (logic group)
                (parts ++ [clause_part JUndefined JUndefined (JString "")]))
    /\ snd (serializeGroup (fst (addGroup group r)))
       = Return (query_document (logic group)
                   (parts ++ [group_part (JString "AND")
                                (query_document AND [])])).
Proof.
  intros [i lg cs] r parts Hdoc. cbn [logic] in *.
  apply serializeGroup_parts in Hdoc.
  rewrite addClause_run, addGroup_run. cbn [fst gid logic clauses].
  split; apply serializeGroup_parts; rewrite array_map_app, Hdoc; reflexivity.
Qed.

Lemma serializeGroup_after_add_witness :
  let r : Rand := fun _ => "h1j2k3l4z" in
  let g := mkGroup "g_1" OR
             [IClause (mkClause "c_2" (Some "State") (Some "equals") (JString "New"))] in
  snd (serializeGroup (fst (addClause g r)))
  = Return (query_document OR
              ([clause_part (JString "State") (JString "equals") (JString "New")]
               ++ [clause_part JUndefined JUndefined (JString "")])).
Proof.
  intros r g.
  apply (proj1 (@serializeGroup_after_add g r
                  [clause_part (JString "State") (JString "equals") (JString "New")]
                  eq_refl)).
Defined.

(** X19. Removing a child by index removes the part at the same index and
    changes nothing else: the parts after [removeClause(group, index)] are the
    parts before with [splice(index, 1)] applied to them, for every index. *)
Theorem serializeGroup_after_removeClause :
  forall (group : Group) (index : Z) (parts : list Json),
    snd (serializeGroup group) = Return (query_document (logic group) parts) ->
    snd (serializeGroup (removeClause group index))
    = Return (query_document (logic group) (splice parts index 1)).
Proof.
  intros [i lg cs] index parts Hdoc. cbn [logic] in *.
  apply serializeGroup_parts in Hdoc.
  unfold removeClause. cbn [gid logic clauses].
  apply serializeGroup_parts. now apply array_map_splice.
Qed.

Lemma serializeGroup_after_removeClause_witness :
  let g := mkGroup "g_1" OR
             [IClause (mkClause "c_2" (Some "State") (Some "equals") (JString "New"));
              IGroup (mkGroup "g_3" AND [])] in
  snd (serializeGroup (removeClause g 0))
  = Return (query_document OR
              [group_part (JString "AND") (query_document AND [])]).
Proof.
  intro g.
  apply (@serializeGroup_after_removeClause g 0
           [clause_part (JString "State") (JString "equals") (JString "New");
            group_part (JString "AND") (query_document AND [])]
           eq_refl).
Defined.

(** ** Catalog with repeated keys, and ids from [uid] *)

Lemma find_first_key (cat_before cat_after : list Field) (f : Field) :
  (forall x, In x cat_before -> key x <> key f) ->
  find (key_is (Some (key f))) (cat_before ++ f :: cat_after) = Some f.
Proof.
  induction cat_before as [| x pre IH]; cbn; intro Hbefore.
  - now rewrite String.eqb_refl.
  - pose proof (Hbefore x (or_introl eq_refl)) as Hneq.
    apply String.eqb_neq in Hneq. rewrite Hneq.
    apply IH. intros y Hy. apply Hbefore. now right.
Qed.

(** X20. When several fields of the catalog share a key, the first one in
    catalog order decides: [operatorsForClause] and [valueInputType] both
    answer from that same field, whatever comes after it. *)
Theorem catalog_first_match_wins :
  forall (this : Component) (clause : Clause) (cat_before cat_after : list Field)
         (f : Field),
    fields this = cat_before ++ f :: cat_after ->
    field clause = Some (key f) ->
    (forall x, In x cat_before -> key x <> key f) ->
    operatorsForClause this clause = operators f
    /\ valueInputType this clause = type f.
Proof.
  intros this clause cat_before cat_after f Hcat Hfield Hbefore.
  unfold operatorsForClause, valueInputType.
  rewrite Hcat, Hfield, (find_first_key cat_before cat_after f Hbefore).
  now split.
Qed.

Lemma catalog_first_match_wins_witness :
  let first := mkField "State" "State" Tstring ["equals"] in
  let second := mkField "State" "Status" Tnumber ["="; "<"] in
  let this := mkComponent ([] ++ first :: [second]) (mkGroup "g_root" AND []) in
  let clause := mkClause "c_1" (Some "State") None (JString "") in
  operatorsForClause this clause = ["equals"]
  /\ valueInputType this clause = Tstring.
Proof.
  intros first second this clause.
  apply (@catalog_first_match_wins this clause [] [second] first).
  - reflexivity.
  - reflexivity.
  - intros x [].
Defined.

Lemma append_inj_r (p a b : string) : (p ++ a = p ++ b)%string -> a = b.
Proof.
  induction p as [| ch p IH]; cbn; intro H; [exact H |].
  injection H as H. now apply IH.
Qed.

(** X21. Two ids made by [uid] with the same prefix are equal exactly when
    [Math.random] gave the same suffix both times, so two Clauses (or two
    Groups) can share an id; a Clause made by [newClause] and a Group made by
    [newGroup] never share one. *)
Theorem uid_collides_iff_same_draw :
  forall (prefix : string) (r r' : Rand),
    (fst (uid prefix r) = fst (uid prefix r') <-> r 0 = r' 0)
    /\ cid (fst (newClause r)) <> gid (fst (newGroup r')).
Proof.
  intros prefix r r'. split.
  - unfold uid, bind, random_suffix, ret. cbn [fst]. split.
    + apply append_inj_r.
    + now intros ->.
  - rewrite newClause_run, newGroup_run. cbn. discriminate.
Qed.
